(** * Bytecap: size inventory, threshold evaluation and alert escalation

    A shallow embedding of the Bytecap backend
    ([packages/backend/src/index.ts] and its variant with an explicit
    workspace path) and of the alert escalator of the frontend
    ([packages/frontend/src/views/App.vue]).

    Conventions of the embedding.
    - A JavaScript [number] that holds a byte count, a megabyte threshold or
      a percentage is an integer ([Z]).  The one true division of the code,
      the warning band [thresholdBytes * percentage / 100], is an exact
      rational ([Q]).  For integers below 2^53 the double-precision
      comparison [size >= band] has the same outcome as the exact one
      ([rounded_band_same_comparison]).
    - A JavaScript string is a [string]; a character is a code unit below
      256.
    - Events sent to the host ([sdk.api.send]) are collected in a trace.
    - The objects the frontend mutates in place (counter records shared
      between the registry and the timer closures) live in an explicit
      store. *)

From Stdlib Require Import ZArith QArith Lia Lqa Bool List Ascii String Sorted.
From Stdlib Require Import Numbers.DecimalString.
From stdpp Require Import gmap strings.
Import ListNotations.

Local Open Scope string_scope.
Local Open Scope Z_scope.

(** ** JavaScript strings and numbers *)

Module Js.

(** [String(n)] for an integer [n] (below 10^21 JavaScript prints every
    digit). *)
Definition numberToString (n : Z) : string :=
  NilZero.string_of_int (Z.to_int n).

(** [s.startsWith(p)] *)
Definition startsWith (s p : string) : bool := String.prefix p s.

(** [s.endsWith(suffix)] *)
Definition endsWith (s suffix : string) : bool :=
  let n := String.length s in
  let m := String.length suffix in
  (m <=? n)%nat && String.eqb (String.substring (n - m) m s) suffix.

(** White space of [String.prototype.trim] among the code units below
    256: TAB, LF, VT, FF, CR, SPACE and NBSP. *)
Definition isWhiteSpace (c : ascii) : bool :=
  let n := nat_of_ascii c in
  ((9 <=? n) && (n <=? 13) || (n =? 32) || (n =? 160))%nat.

Fixpoint trimStart (s : string) : string :=
  match s with
  | String c rest => if isWhiteSpace c then trimStart rest else s
  | EmptyString => EmptyString
  end.

(** Drops the trailing white space: a character is kept when it is not
    white space or when something is kept after it. *)
Fixpoint trimEnd (s : string) : string :=
  match s with
  | String c rest =>
      match trimEnd rest with
      | EmptyString => if isWhiteSpace c then EmptyString else String c EmptyString
      | kept => String c kept
      end
  | EmptyString => EmptyString
  end.

(** [s.trim()] *)
Definition trim (s : string) : string := trimEnd (trimStart s).

(** The last code unit of a string, if any. *)
Fixpoint lastChar (s : string) : option ascii :=
  match s with
  | EmptyString => None
  | String c EmptyString => Some c
  | String _ rest => lastChar rest
  end.

(** Whether the code unit [c] occurs in [s]. *)
Fixpoint occursIn (c : ascii) (s : string) : bool :=
  match s with
  | EmptyString => false
  | String x rest => Ascii.eqb x c || occursIn c rest
  end.

End Js.

(** ** Data model (both backend variants and the frontend declare it) *)

Record FileInfo := mkFileInfo {
  name : string;
  size : Z;
  sizeFormatted : string
}.

Record DirectoryInfo := mkDirectoryInfo {
  files : list FileInfo;
  totalSize : Z;
  totalSizeFormatted : string;
  scanPath : string;
  caidoFiles : list FileInfo;
  caidoTotalSize : Z;
  caidoTotalSizeFormatted : string
}.

(** ** formatBytes *)

Definition k : Z := 1024.

Definition sizes : list string := ["B"; "KB"; "MB"; "GB"].

(** [Math.floor(Math.log(bytes) / Math.log(k))] for an integer
    [bytes >= 1]: the exact floor of the logarithm in base 1024, which is
    [floor (log2 bytes) / 10] (see [unitIndex_spec]).  The rounding of the
    two double-precision logarithms and of their quotient is not
    modelled: up to 1024^4 it is too small to move the floor, and for far
    larger counts it can only make the index larger. *)
Definition unitIndex (bytes : Z) : Z := Z.log2 bytes / Z.log2 k.

(** [(bytes / Math.pow(k, i)).toFixed(2)] as a count of hundredths.  The
    division by a power of two is exact in double precision; [toFixed]
    picks the nearest multiple of 1/100 and the larger one on a tie. *)
Definition toFixed2 (bytes i : Z) : Z :=
  (200 * bytes + k ^ i) / (2 * k ^ i).

(** [String(parseFloat(s))] for [s] the two-decimal rendering of
    [hundredths]: trailing zeros of the fraction are dropped. *)
Definition hundredthsToString (hundredths : Z) : string :=
  let whole := Js.numberToString (hundredths / 100) in
  let frac := hundredths mod 100 in
  if frac =? 0 then whole
  else if frac mod 10 =? 0 then whole +:+ "." +:+ Js.numberToString (frac / 10)
  else whole +:+ "." +:+ Js.numberToString (frac / 10) +:+ Js.numberToString (frac mod 10).

(** [sizes[i]] inside a string concatenation: an index outside the array
    reads [undefined]. *)
Definition unitAt (i : Z) : string :=
  match nth_error sizes (Z.to_nat i) with
  | Some u => u
  | None => "undefined"
  end.

(** The number part of the result for [bytes >= 1]. *)
Definition numberPart (bytes : Z) : string :=
  hundredthsToString (toFixed2 bytes (unitIndex bytes)).

Definition formatBytes (bytes : Z) : string :=
  if bytes =? 0 then "0 B"
  else if bytes <? 0 then "NaN undefined"  (* Math.log of a negative number *)
  else numberPart bytes +:+ " " +:+ unitAt (unitIndex bytes).

(** ** Events sent to the host with [sdk.api.send] *)

Inductive AlertType := error | warning.

Record ThresholdAlert := mkThresholdAlert {
  type : AlertType;
  message : string
}.

Module ScanSummary.
Record t := mk {
  fileCount : Z;
  caidoFileCount : Z;
  totalSize : string;
  caidoTotalSize : string
}.
End ScanSummary.

Inductive BackendEvent :=
| threshold_alert (alert : ThresholdAlert)      (* "bytecap:threshold-alert" *)
| file_scan_complete (summary : ScanSummary.t). (* "bytecap:file-scan-complete" *)

(** ** checkFileSizeThresholds *)

(** The two arrays the function fills and returns, and the events it has
    sent so far. *)
Record Evaluation := mkEvaluation {
  alerts : list string;
  warnings : list string;
  sent : list BackendEvent
}.

(** [alerts.push(m); sdk.api.send("bytecap:threshold-alert", {type: "error", message: m})] *)
Definition pushAlert (m : string) (st : Evaluation) : Evaluation :=
  {| alerts := alerts st ++ [m];
     warnings := warnings st;
     sent := sent st ++ [threshold_alert (mkThresholdAlert error m)] |}.

(** [warnings.push(m); sdk.api.send("bytecap:threshold-alert", {type: "warning", message: m})] *)
Definition pushWarning (m : string) (st : Evaluation) : Evaluation :=
  {| alerts := alerts st;
     warnings := warnings st ++ [m];
     sent := sent st ++ [threshold_alert (mkThresholdAlert warning m)] |}.

Definition combinedAlertMessage (directoryInfo : DirectoryInfo) (thresholdMB : Z) : string :=
  "Combined .caido files (" +:+ caidoTotalSizeFormatted directoryInfo +:+ ") exceed "
    +:+ Js.numberToString thresholdMB +:+ "MB threshold".

Definition combinedWarningMessage (directoryInfo : DirectoryInfo) (thresholdMB percentage : Z)
  : string :=
  "Combined .caido files (" +:+ caidoTotalSizeFormatted directoryInfo +:+ ") are at "
    +:+ Js.numberToString percentage +:+ "% of "
    +:+ Js.numberToString thresholdMB +:+ "MB threshold".

Definition fileAlertMessage (file : FileInfo) (thresholdMB : Z) : string :=
  "File " +:+ String (ascii_of_nat 34) (name file) +:+ String (ascii_of_nat 34) " ("
    +:+ sizeFormatted file +:+ ") exceeds "
    +:+ Js.numberToString thresholdMB +:+ "MB threshold".

Definition fileWarningMessage (file : FileInfo) (thresholdMB percentage : Z) : string :=
  "File " +:+ String (ascii_of_nat 34) (name file) +:+ String (ascii_of_nat 34) " ("
    +:+ sizeFormatted file +:+ ") is at "
    +:+ Js.numberToString percentage +:+ "% of "
    +:+ Js.numberToString thresholdMB +:+ "MB threshold".

(** [const warningThreshold = (thresholdBytes * percentage) / 100] *)
Definition warningThreshold (thresholdBytes percentage : Z) : Q :=
  (inject_Z (thresholdBytes * percentage) / 100)%Q.

(** [for (const percentage of warningPercentages) { ... break; }]: the
    loop the source writes once for the combined total and once for a
    single file; [entitySize] is the size compared and [warningMessage]
    builds the text for the percentage that fires. *)
Fixpoint warningLoop (thresholdBytes entitySize : Z) (warningMessage : Z -> string)
    (warningPercentages : list Z) (st : Evaluation) : Evaluation :=
  match warningPercentages with
  | [] => st
  | percentage :: rest =>
      if Qle_bool (warningThreshold thresholdBytes percentage) (inject_Z entitySize)
      then pushWarning (warningMessage percentage) st (* break *)
      else warningLoop thresholdBytes entitySize warningMessage rest st
  end.

(** The "combined .caido files" block. *)
Definition checkCombined (directoryInfo : DirectoryInfo) (thresholdMB : Z)
    (enableWarnings : bool) (warningPercentages : list Z) (st : Evaluation) : Evaluation :=
  let thresholdBytes := thresholdMB * 1024 * 1024 in
  if (0 <? length (caidoFiles directoryInfo))%nat then
    if thresholdBytes <=? caidoTotalSize directoryInfo then
      pushAlert (combinedAlertMessage directoryInfo thresholdMB) st
    else if enableWarnings then
      warningLoop thresholdBytes (caidoTotalSize directoryInfo)
        (combinedWarningMessage directoryInfo thresholdMB) warningPercentages st
    else st
  else st.

(** The body of the loop over [directoryInfo.files]. *)
Definition checkFile (thresholdMB : Z) (enableWarnings : bool)
    (warningPercentages : list Z) (st : Evaluation) (file : FileInfo) : Evaluation :=
  let thresholdBytes := thresholdMB * 1024 * 1024 in
  if negb (Js.endsWith (name file) ".caido") then
    if thresholdBytes <=? size file then
      pushAlert (fileAlertMessage file thresholdMB) st
    else if enableWarnings then
      warningLoop thresholdBytes (size file)
        (fileWarningMessage file thresholdMB) warningPercentages st
    else st
  else st.

(** The default value of the parameter [warningPercentages]. *)
Definition defaultWarningPercentages : list Z := [75; 90].

Definition checkFileSizeThresholds (directoryInfo : DirectoryInfo) (thresholdMB : Z)
    (enableWarnings : bool) (warningPercentages : list Z) : Evaluation :=
  let st := {| alerts := []; warnings := []; sent := [] |} in
  let st := checkCombined directoryInfo thresholdMB enableWarnings warningPercentages st in
  fold_left (checkFile thresholdMB enableWarnings warningPercentages)
    (files directoryInfo) st.

(** ** The file system seen by the scan *)

(** A directory entry as [readdirSync(dir, {withFileTypes: true})] returns
    it, together with what the scan will learn from it: for a regular file
    the size [statSync] reports ([None] when [statSync] throws), for a
    directory its own listing ([None] when [readdirSync] throws). *)
#[warnings="-register-all"]
Inductive Dirent :=
| RegularFile (entryName : string) (statSize : option Z)
| Directory (entryName : string) (listing : option (list Dirent))
| OtherEntry (entryName : string).

(** [files] and [totalSize], the two variables [scanDirectory] updates. *)
Record ScanState := mkScanState {
  scannedFiles : list FileInfo;
  scannedTotal : Z
}.

(** [relativePath ? `${relativePath}/${entry.name}` : entry.name] *)
Definition displayNameOf (relativePath entryName : string) : string :=
  if String.eqb relativePath "" then entryName
  else relativePath +:+ "/" +:+ entryName.

(** The body of the loop of [scanDirectory] for one entry; a directory
    entry runs the loop over its own listing. *)
Fixpoint scanEntry (relativePath : string) (entry : Dirent) (st : ScanState)
    {struct entry} : ScanState :=
  match entry with
  | RegularFile entryName (Some sz) =>
      {| scannedFiles :=
           scannedFiles st
             ++ [mkFileInfo (displayNameOf relativePath entryName) sz (formatBytes sz)];
         scannedTotal := scannedTotal st + sz |}
  | RegularFile _ None => st          (* catch (statError) *)
  | Directory entryName (Some entries) =>
      (fix loop (es : list Dirent) (st : ScanState) : ScanState :=
         match es with
         | [] => st
         | e :: es' => loop es' (scanEntry (displayNameOf relativePath entryName) e st)
         end) entries st
  | Directory _ None => st            (* catch (scanError) *)
  | OtherEntry _ => st
  end.

(** [scanDirectory(dirPath, relativePath)], where [listing] is what
    [readdirSync(dirPath)] returns. *)
Definition scanDirectory (listing : option (list Dirent)) (relativePath : string)
    (st : ScanState) : ScanState :=
  match listing with
  | Some entries => fold_left (fun st e => scanEntry relativePath e st) entries st
  | None => st
  end.

(** [files.sort((a, b) => b.size - a.size)]: [Array.prototype.sort] is
    stable, so a file moves in front of the files already placed whose
    size is not larger. *)
Fixpoint insertBySize (f : FileInfo) (sorted : list FileInfo) : list FileInfo :=
  match sorted with
  | [] => [f]
  | g :: rest =>
      if size f <? size g then g :: insertBySize f rest else f :: g :: rest
  end.

Definition sortBySizeDesc (l : list FileInfo) : list FileInfo :=
  fold_right insertBySize [] l.

Definition isCaido (file : FileInfo) : bool := Js.endsWith (name file) ".caido".

(** [caidoFiles.reduce((total, file) => total + file.size, 0)] *)
Definition sumSizes (l : list FileInfo) : Z :=
  fold_left (fun total file => total + size file) l 0.

(** What the scan sends and returns once the walk is over. *)
Definition scanSummary (sorted caido : list FileInfo) (total caidoTotal : Z)
  : ScanSummary.t :=
  ScanSummary.mk (Z.of_nat (length sorted)) (Z.of_nat (length caido))
    (formatBytes total) (formatBytes caidoTotal).

Definition inventoryOf (path : string) (st : ScanState) : DirectoryInfo :=
  let files := sortBySizeDesc (scannedFiles st) in
  let caidoFiles := List.filter isCaido files in
  let caidoTotalSize := sumSizes caidoFiles in
  {| files := files;
     totalSize := scannedTotal st;
     totalSizeFormatted := formatBytes (scannedTotal st);
     scanPath := path;
     caidoFiles := caidoFiles;
     caidoTotalSize := caidoTotalSize;
     caidoTotalSizeFormatted := formatBytes caidoTotalSize |}.

Definition emptyInventory (path : string) : DirectoryInfo :=
  {| files := [];
     totalSize := 0;
     totalSizeFormatted := "0 B";
     scanPath := path;
     caidoFiles := [];
     caidoTotalSize := 0;
     caidoTotalSizeFormatted := "0 B" |}.

Definition EMPTY_INFO : DirectoryInfo := emptyInventory "".

(** ** The host: SDK, [os] and [fs] *)

(** How a call into the host completes. *)
Inductive Completion (A : Type) :=
| Normal (a : A)
| Throw.
Arguments Normal {A} a.
Arguments Throw {A}.

#[global] Instance Completion_bind : MBind Completion :=
  fun A B (f : A -> Completion B) (c : Completion A) =>
    match c with
    | Normal a => f a
    | Throw => Throw
    end.

#[global] Instance Completion_ret : MRet Completion := fun A a => Normal a.

(** [try { body } catch (error) { return handler }] *)
Definition tryCatch {A : Type} (body : Completion A) (handler : A) : Completion A :=
  match body with
  | Normal a => Normal a
  | Throw => Normal handler
  end.

Record Project := mkProject {
  getId : string;
  getPath : string
}.

Record Host := mkHost {
  (** [await sdk.projects.getCurrent()]; [Throw] is a rejected promise *)
  getCurrent : Completion (option Project);
  (** [sdk.meta.path()] *)
  metaPath : Completion string;
  (** [sdk.api.send(...)] *)
  send : BackendEvent -> Completion unit;
  (** [os.platform()] and [os.homedir()] *)
  platform : string;
  homedir : string;
  (** [accessSync(path, constants.F_OK)] returns without throwing *)
  accessOk : string -> bool;
  (** [readdirSync(path, {withFileTypes: true})] at the root of the scan *)
  readdir : string -> option (list Dirent)
}.

Definition pathExists (h : Host) (path : string) : bool := accessOk h path.

(** The walk, the sort and the grouping: the part of [getWorkspaceFiles]
    that follows the existence check, identical in both variants.  The
    result is the inventory and the events sent. *)
Definition scanAndReport (h : Host) (path : string)
  : Completion (DirectoryInfo * list BackendEvent) :=
  let st := scanDirectory (readdir h path) "" (mkScanState [] 0) in
  let info := inventoryOf path st in
  let summary :=
    scanSummary (files info) (caidoFiles info) (totalSize info) (caidoTotalSize info) in
  _ ← send h (file_scan_complete summary);
  mret (info, [file_scan_complete summary]).

(** ** getWorkspaceFiles, variant of [packages/backend/src/index.ts] *)

Module ProjectScan.

Definition getWorkspaceFiles (h : Host) : Completion (DirectoryInfo * list BackendEvent) :=
  tryCatch
    (project ← getCurrent h;
     match project with
     | None => mret (EMPTY_INFO, [])
     | Some project =>
         let projectDir := getPath project in
         let projectDirExists := pathExists h projectDir in
         if negb projectDirExists then mret (EMPTY_INFO, [])
         else scanAndReport h projectDir
     end)
    (EMPTY_INFO, []).

End ProjectScan.

(** ** getWorkspaceFiles, variant with an explicit workspace path *)

Module PathScan.

Definition getCaidoProjectsDir (h : Host) : string :=
  let home := homedir h in
  if String.eqb (platform h) "darwin" then
    home +:+ "/Library/Application Support/io.caido.Caido/projects"
  else if String.eqb (platform h) "linux" then
    home +:+ "/.local/share/caido/projects"
  else if String.eqb (platform h) "win32" then
    home +:+ "/caido/Caido/data/projects"
  else home +:+ "/projects".

(** The replacement text of [String.prototype.replace] with a string
    pattern: [$$], [$&], [$`] and [$'] are expanded, there are no
    captures. *)
Fixpoint getSubstitution (matched preceding following replacement : string) : string :=
  match replacement with
  | String "$" (String "$" rest) =>
      "$" +:+ getSubstitution matched preceding following rest
  | String "$" (String "&" rest) =>
      matched +:+ getSubstitution matched preceding following rest
  | String "$" (String "`" rest) =>
      preceding +:+ getSubstitution matched preceding following rest
  | String "$" (String "'" rest) =>
      following +:+ getSubstitution matched preceding following rest
  | String c rest => String c (getSubstitution matched preceding following rest)
  | EmptyString => EmptyString
  end.

(** [s.replace(pattern, replacement)] for a string [pattern]: only the
    first occurrence is replaced. *)
Definition replaceFirst (s pattern replacement : string) : string :=
  match String.index 0 pattern s with
  | None => s
  | Some i =>
      let preceding := String.substring 0 i s in
      let following :=
        String.substring (i + String.length pattern)
          (String.length s - i - String.length pattern) s in
      preceding +:+ getSubstitution pattern preceding following replacement +:+ following
  end.

(** [s.replace(/lit/g, replacement)] for a regular expression that is a
    literal, non-empty sequence [lit] of characters and a replacement
    without [$]: the matches are found from left to right and do not
    overlap.  [skip] counts the characters of a match still to drop. *)
Fixpoint replaceAllFrom (lit replacement : string) (skip : nat) (s : string) : string :=
  match s with
  | EmptyString => EmptyString
  | String c rest =>
      match skip with
      | S n => replaceAllFrom lit replacement n rest
      | O =>
          if String.prefix lit s
          then replacement +:+ replaceAllFrom lit replacement (String.length lit - 1) rest
          else String c (replaceAllFrom lit replacement 0 rest)
      end
  end.

Definition replaceAll (s lit replacement : string) : string :=
  replaceAllFrom lit replacement 0 s.

(** The characters the regular expression literal [/\\\\ /g] of
    [expandPath] matches: each [\\] of the literal stands for one
    backslash, so the pattern is two backslashes and a space. *)
Definition escapedSpacePattern : string := "\\ ".

Definition expandPath (h : Host) (inputPath : string) : string :=
  let path := Js.trim inputPath in
  let path :=
    if Js.startsWith path "~" then replaceFirst path "~" (homedir h) else path in
  let path := replaceAll path escapedSpacePattern " " in
  path.

(** The code after the path is chosen. *)
Definition scanPathOrEmpty (h : Host) (path : string)
  : Completion (DirectoryInfo * list BackendEvent) :=
  if negb (pathExists h path) then mret (emptyInventory path, [])
  else scanAndReport h path.

(** The [else] branch: the directory of the current project, or the
    plugin path. *)
Definition viaCurrentProject (h : Host) : Completion (DirectoryInfo * list BackendEvent) :=
  project ← getCurrent h;
  match project with
  | None => mret (emptyInventory "", [])
  | Some project =>
      let caidoProjectsDir := getCaidoProjectsDir h in
      let projectDir := caidoProjectsDir +:+ "/" +:+ getId project in
      if pathExists h projectDir then scanPathOrEmpty h projectDir
      else path ← metaPath h; scanPathOrEmpty h path
  end.

Definition getWorkspaceFiles (h : Host) (workspacePath : option string)
  : Completion (DirectoryInfo * list BackendEvent) :=
  tryCatch
    (match workspacePath with
     | Some workspacePath =>
         if (0 <? String.length workspacePath)%nat
         then scanPathOrEmpty h (expandPath h workspacePath)
         else viaCurrentProject h
     | None => viaCurrentProject h
     end)
    (emptyInventory "error", []).

End PathScan.

(** ** The alert escalator of the frontend ([App.vue]) *)

Module Escalator.

(** A counter object [{ count, intervalId? }].  The registry
    [alertCounters] and the closures of the timers hold references to
    it, so the objects live in a store and are named by their
    location. *)
Record Counter := mkCounter {
  count : Z;
  intervalId : option positive
}.

(** What the callback given to [setInterval] captures. *)
Record Timer := mkTimer {
  timerAlert : ThresholdAlert;
  timerCounter : positive
}.

(** One call of [confirm]: the alert shown and its number. *)
Record Display := mkDisplay {
  shown : ThresholdAlert;
  alertNumber : Z
}.

Record State := mkState {
  ignoredAlerts : gset string;
  alertCounters : gmap string positive;
  store : gmap positive Counter;
  (** the intervals armed with [setInterval] and not yet cleared *)
  intervals : gmap positive Timer;
  (** the next handle [setInterval] returns (handles are positive) *)
  nextInterval : positive;
  (** the location of the next object allocated *)
  nextObject : positive;
  flashBanner : option ThresholdAlert;
  (** the dialogs shown so far, oldest first *)
  displayed : list Display
}.

Definition init : State :=
  {| ignoredAlerts := ∅; alertCounters := ∅; store := ∅; intervals := ∅;
     nextInterval := 1%positive; nextObject := 1%positive;
     flashBanner := None; displayed := [] |}.

Definition typeName (t : AlertType) : string :=
  match t with
  | error => "error"
  | warning => "warning"
  end.

(** [`${alert.type}:${alert.message}`] *)
Definition alertKey (alert : ThresholdAlert) : string :=
  typeName (type alert) +:+ ":" +:+ message alert.

Definition setIgnored (v : gset string) (s : State) : State :=
  mkState v (alertCounters s) (store s) (intervals s) (nextInterval s)
    (nextObject s) (flashBanner s) (displayed s).

Definition setAlertCounters (v : gmap string positive) (s : State) : State :=
  mkState (ignoredAlerts s) v (store s) (intervals s) (nextInterval s)
    (nextObject s) (flashBanner s) (displayed s).

Definition setStore (v : gmap positive Counter) (s : State) : State :=
  mkState (ignoredAlerts s) (alertCounters s) v (intervals s) (nextInterval s)
    (nextObject s) (flashBanner s) (displayed s).

Definition setIntervals (v : gmap positive Timer) (s : State) : State :=
  mkState (ignoredAlerts s) (alertCounters s) (store s) v (nextInterval s)
    (nextObject s) (flashBanner s) (displayed s).

Definition setFlashBanner (v : option ThresholdAlert) (s : State) : State :=
  mkState (ignoredAlerts s) (alertCounters s) (store s) (intervals s)
    (nextInterval s) (nextObject s) v (displayed s).

(** [clearInterval(id)] *)
Definition clearInterval (id : positive) (s : State) : State :=
  setIntervals (delete id (intervals s)) s.

(** [if (counter.intervalId) { clearInterval(counter.intervalId); delete counter.intervalId; }] *)
Definition cancelTimerOf (counter : positive) (s : State) : State :=
  match store s !! counter with
  | Some c =>
      match intervalId c with
      | Some id =>
          setStore (<[counter := mkCounter (count c) None]> (store s))
            (clearInterval id s)
      | None => s
      end
  | None => s
  end.

(** [confirm(...)]: the dialog is recorded; its answer [result] is an
    input of the model. *)
Definition confirm (alert : ThresholdAlert) (number : Z) (s : State) : State :=
  mkState (ignoredAlerts s) (alertCounters s) (store s) (intervals s)
    (nextInterval s) (nextObject s) (flashBanner s)
    (displayed s ++ [mkDisplay alert number]).

(** The closure [showSingleAlert] of one call of [showThresholdAlert]:
    it captures [alert], [alertKey] and [counter]. *)
Definition showSingleAlert (alert : ThresholdAlert) (counter : positive)
    (number : Z) (result : bool) (s : State) : State :=
  let s := confirm alert number s in
  if negb result then
    let s := setIgnored ({[alertKey alert]} ∪ ignoredAlerts s) s in
    cancelTimerOf counter s
  else if number =? 1 then setFlashBanner (Some alert) s
  else s.

(** [counter.count = v] *)
Definition setCount (counter : positive) (v : Z) (s : State) : State :=
  match store s !! counter with
  | Some c => setStore (<[counter := mkCounter v (intervalId c)]> (store s)) s
  | None => s
  end.

(** [counter.intervalId = setInterval(callback, 60000)] *)
Definition armInterval (alert : ThresholdAlert) (counter : positive) (s : State) : State :=
  let id := nextInterval s in
  let registered :=
    match store s !! counter with
    | Some c => <[counter := mkCounter (count c) (Some id)]> (store s)
    | None => store s
    end in
  mkState (ignoredAlerts s) (alertCounters s) registered
    (<[id := mkTimer alert counter]> (intervals s))
    (Pos.succ id) (nextObject s) (flashBanner s) (displayed s).

(** [if (!alertCounters.value.has(alertKey)) alertCounters.value.set(alertKey, { count: 0 })]
    followed by [alertCounters.value.get(alertKey)!]: the state and the
    location of the counter. *)
Definition counterFor (key : string) (s : State) : State * positive :=
  match alertCounters s !! key with
  | Some counter => (s, counter)
  | None =>
      let counter := nextObject s in
      (mkState (ignoredAlerts s) (<[key := counter]> (alertCounters s))
         (<[counter := mkCounter 0 None]> (store s)) (intervals s)
         (nextInterval s) (Pos.succ counter) (flashBanner s) (displayed s),
       counter)
  end.

(** [showThresholdAlert(alert)]; [result] is the answer to the dialog it
    shows, if it shows one. *)
Definition showThresholdAlert (alert : ThresholdAlert) (result : bool) (s : State) : State :=
  let key := alertKey alert in
  if decide (key ∈ ignoredAlerts s) then s
  else
    let '(s, counter) := counterFor key s in
    let s := setCount counter 1 s in
    let s := showSingleAlert alert counter 1 result s in
    if decide (key ∈ ignoredAlerts s) then s
    else armInterval alert counter s.

(** The callback of [setInterval], run when the interval [id] fires; an
    interval that was cleared does not fire. *)
Definition fire (id : positive) (result : bool) (s : State) : State :=
  match intervals s !! id with
  | None => s
  | Some t =>
      let alert := timerAlert t in
      let counter := timerCounter t in
      if decide (alertKey alert ∈ ignoredAlerts s) then cancelTimerOf counter s
      else
        match store s !! counter with
        | None => s
        | Some c =>
            let s := setCount counter (count c + 1) s in
            let s := showSingleAlert alert counter (count c + 1) result s in
            match store s !! counter with
            | Some c' => if 3 <=? count c' then cancelTimerOf counter s else s
            | None => s
            end
        end
  end.

(** [alertCounters.value.forEach(counter => { if (counter.intervalId)
    clearInterval(counter.intervalId) })] *)
Definition clearRegisteredIntervals (s : State) : State :=
  map_fold
    (fun (_ : string) (counter : positive) (s : State) =>
       match store s !! counter with
       | Some c =>
           match intervalId c with
           | Some id => clearInterval id s
           | None => s
           end
       | None => s
       end)
    s (alertCounters s).

(** [clearAllNotifications()] (the lists [alerts] and [warnings] it also
    empties are not part of this state). *)
Definition clearAllNotifications (s : State) : State :=
  let s := clearRegisteredIntervals s in
  let s := setAlertCounters ∅ s in
  let s := setIgnored ∅ s in
  setFlashBanner None s.

(** What can happen to the escalator: the backend event
    ["bytecap:threshold-alert"] arrives, an interval fires, or the user
    clears everything.  [result] is the answer the user gives to the
    dialog the step shows ([true] is OK, [false] is Cancel). *)
Inductive Input :=
| Deliver (alert : ThresholdAlert) (result : bool)
| Fire (id : positive) (result : bool)
| ClearAll.

Definition step (s : State) (i : Input) : State :=
  match i with
  | Deliver alert result => showThresholdAlert alert result s
  | Fire id result => fire id result s
  | ClearAll => clearAllNotifications s
  end.

Definition run (inputs : list Input) (s : State) : State :=
  fold_left step inputs s.

(** The displays of the identity [key] in a list of displays. *)
Definition displaysOf (key : string) (l : list Display) : list Display :=
  List.filter (fun d => String.eqb (alertKey (shown d)) key) l.

(** *** Notions the statements about the escalator use *)

(** Handles and locations in use are below the next ones to be handed
    out. *)
Record wellFormed (s : State) : Prop := {
  wf_registry :
    forall key counter,
      alertCounters s !! key = Some counter -> (counter < nextObject s)%positive;
  wf_intervals :
    forall id t,
      intervals s !! id = Some t ->
      (id < nextInterval s)%positive /\ (timerCounter t < nextObject s)%positive;
  wf_handles :
    forall counter c id,
      store s !! counter = Some c -> intervalId c = Some id ->
      (id < nextInterval s)%positive
}.

(** The identity [key] is unknown to the escalator: not ignored, without a
    counter, and no live interval shows it. *)
Record unseen (key : string) (s : State) : Prop := {
  unseen_not_ignored : key ∉ ignoredAlerts s;
  unseen_no_counter : alertCounters s !! key = None;
  unseen_no_interval :
    forall id t, intervals s !! id = Some t -> alertKey (timerAlert t) <> key
}.

(** The escalation of [alert], armed as interval [id] with the counter at
    [counter], has shown [n] dialogs; the interval is live until the
    third. *)
Record escalating (alert : ThresholdAlert) (id counter : positive) (n : Z) (s : State)
  : Prop := {
  esc_range : 1 <= n <= 3;
  esc_not_ignored : alertKey alert ∉ ignoredAlerts s;
  esc_registry :
    forall key, alertCounters s !! key = Some counter -> key = alertKey alert;
  esc_counter :
    store s !! counter = Some (mkCounter n (if n <? 3 then Some id else None));
  esc_interval :
    intervals s !! id = (if n <? 3 then Some (mkTimer alert counter) else None);
  esc_other_intervals :
    forall id' t,
      intervals s !! id' = Some t -> id' <> id ->
      alertKey (timerAlert t) <> alertKey alert /\ timerCounter t <> counter;
  esc_other_handles :
    forall counter' c,
      store s !! counter' = Some c -> counter' <> counter -> intervalId c <> Some id;
  esc_next_interval : (id < nextInterval s)%positive;
  esc_next_object : (counter < nextObject s)%positive
}.

(** What may happen while the escalation of the identity [key], armed as
    interval [id], runs undisturbed: other identities are delivered, any
    interval fires, and the user never answers Cancel to a dialog of
    interval [id]. *)
Definition undisturbed (key : string) (id : positive) (i : Input) : Prop :=
  match i with
  | Deliver alert _ => alertKey alert <> key
  | Fire id' result => id' = id -> result = true
  | ClearAll => False
  end.

Definition isFireOf (id : positive) (i : Input) : bool :=
  match i with
  | Fire id' _ => Pos.eqb id' id
  | _ => false
  end.

(** The number of times the interval [id] fires in a list of inputs. *)
Definition firesOf (id : positive) (inputs : list Input) : nat :=
  length (List.filter (isFireOf id) inputs).

(** The three dialogs of an escalation. *)
Definition threeDisplays (alert : ThresholdAlert) : list Display :=
  [mkDisplay alert 1; mkDisplay alert 2; mkDisplay alert 3].

End Escalator.

(** ** Notions the statements below use *)

(** The evaluation before anything is pushed. *)
Definition emptyEvaluation : Evaluation :=
  {| alerts := []; warnings := []; sent := [] |}.

(** One evaluation followed by another. *)
Definition addEvaluation (a b : Evaluation) : Evaluation :=
  {| alerts := alerts a ++ alerts b;
     warnings := warnings a ++ warnings b;
     sent := sent a ++ sent b |}.

(** What [checkFileSizeThresholds] determines for one file taken alone. *)
Definition verdict (thresholdMB : Z) (enableWarnings : bool)
    (warningPercentages : list Z) (file : FileInfo) : Evaluation :=
  checkFile thresholdMB enableWarnings warningPercentages emptyEvaluation file.

(** The sum of a list of integers. *)
Definition sumOf (l : list Z) : Z := fold_right Z.add 0 l.

(** The invariant of an inventory. *)
Record InventoryInvariant (info : DirectoryInfo) : Prop := {
  inv_totalSize : totalSize info = sumOf (map size (files info));
  inv_caidoFiles :
    caidoFiles info = List.filter (fun f => Js.endsWith (name f) ".caido") (files info);
  inv_caidoTotalSize :
    caidoTotalSize info =
      sumOf (map size
               (List.filter (fun f => Js.endsWith (name f) ".caido") (files info)));
  inv_sublist : sublist (caidoFiles info) (files info)
}.

(** An inventory without files. *)
Definition isEmptyInventory (info : DirectoryInfo) : Prop :=
  files info = [] /\ totalSize info = 0 /\ caidoFiles info = [] /\ caidoTotalSize info = 0.

(** The running total is the sum of the sizes of the files collected. *)
Definition totalIsSum (st : ScanState) : Prop :=
  scannedTotal st = sumOf (map size (scannedFiles st)).

(** ** Notions the statements about the walk and the evaluation use *)

(** The state of a walk followed by what another walk collected. *)
Definition appendScan (a b : ScanState) : ScanState :=
  {| scannedFiles := scannedFiles a ++ scannedFiles b;
     scannedTotal := scannedTotal a + scannedTotal b |}.

(** The walk before anything is collected. *)
Definition emptyScan : ScanState := mkScanState [] 0.

(** Descending order of size. *)
Definition bySizeDesc (a b : FileInfo) : Prop := size b <= size a.

(** A string of white space only (the empty string included). *)
Fixpoint isBlank (s : string) : bool :=
  match s with
  | EmptyString => true
  | String c rest => Js.isWhiteSpace c && isBlank rest
  end.

(** The host [h] with another current project and another plugin path. *)
Definition withProject (h : Host) (current : Completion (option Project))
    (pluginPath : Completion string) : Host :=
  mkHost current pluginPath (send h) (platform h) (homedir h) (accessOk h) (readdir h).



Definition sameType (a b : AlertType) : bool :=
  match a, b with
  | error, error => true
  | warning, warning => true
  | _, _ => false
  end.

(** The messages of the threshold-alert events of one severity, in the
    order in which they were sent. *)
Fixpoint messagesOf (severity : AlertType) (events : list BackendEvent) : list string :=
  match events with
  | [] => []
  | threshold_alert alert :: rest =>
      if sameType (type alert) severity
      then message alert :: messagesOf severity rest
      else messagesOf severity rest
  | file_scan_complete _ :: rest => messagesOf severity rest
  end.

Definition isThresholdAlert (event : BackendEvent) : bool :=
  match event with
  | threshold_alert _ => true
  | file_scan_complete _ => false
  end.

(** A file the loop over the files gives an alert for. *)
Definition overThreshold (thresholdMB : Z) (file : FileInfo) : bool :=
  negb (Js.endsWith (name file) ".caido") && (thresholdMB * 1024 * 1024 <=? size file).

(** The combined total gets an alert. *)
Definition groupOverThreshold (directoryInfo : DirectoryInfo) (thresholdMB : Z) : bool :=
  (0 <? length (caidoFiles directoryInfo))%nat
  && (thresholdMB * 1024 * 1024 <=? caidoTotalSize directoryInfo).

(** The events sent so far are the alerts and the warnings found so far. *)
Definition echoed (st : Evaluation) : Prop :=
  messagesOf error (sent st) = alerts st
  /\ messagesOf warning (sent st) = warnings st
  /\ length (sent st) = (length (alerts st) + length (warnings st))%nat
  /\ forallb isThresholdAlert (sent st) = true.

(** ** The settings of the frontend ([App.vue]) *)

Module Frontend.

Record Settings := mkSettings {
  thresholdMB : Z;
  enableWarnings : bool;
  warningAt75Percent : bool;
  warningAt90Percent : bool
}.

(** The computed property [warningPercentages]. *)
Definition warningPercentages (settings : Settings) : list Z :=
  let percentages : list Z := [] in
  let percentages :=
    if warningAt75Percent settings then (percentages ++ [75])%list else percentages in
  let percentages :=
    if warningAt90Percent settings then (percentages ++ [90])%list else percentages in
  percentages.

End Frontend.

(** ** Induction over directory trees *)

Section DirentInduction.

Variable P : Dirent -> Prop.
Hypothesis file_case : forall n s, P (RegularFile n s).
Hypothesis unreadable_case : forall n, P (Directory n None).
Hypothesis directory_case : forall n es, List.Forall P es -> P (Directory n (Some es)).
Hypothesis other_case : forall n, P (OtherEntry n).

(** Induction over a directory tree: a directory is reached with the
    property already known for every entry of its listing. *)
Fixpoint Dirent_tree_ind (e : Dirent) : P e :=
  match e as x return P x with
  | RegularFile n s => file_case n s
  | Directory n None => unreadable_case n
  | Directory n (Some es) =>
      directory_case n es
        ((fix entries_ind (l : list Dirent) : List.Forall P l :=
            match l as x return List.Forall P x with
            | [] => @List.Forall_nil _ P
            | e' :: l' => @List.Forall_cons _ P e' l' (Dirent_tree_ind e') (entries_ind l')
            end) es)
  | OtherEntry n => other_case n
  end.

End DirentInduction.

(** * Properties *)

(** ** Strings *)

Section StringFacts.

Lemma append_cons (c : ascii) (a b : string) : String c a +:+ b = String c (a +:+ b).
Proof. reflexivity. Qed.

Lemma append_nil_l (b : string) : "" +:+ b = b.
Proof. reflexivity. Qed.

Lemma append_nil_r (s : string) : s +:+ "" = s.
Proof.
  induction s as [|c s IH]; [reflexivity|].
  now rewrite append_cons, IH.
Qed.

Lemma append_assoc (a b c : string) : (a +:+ b) +:+ c = a +:+ (b +:+ c).
Proof.
  induction a as [|x a IH]; [reflexivity|].
  now rewrite !append_cons, IH.
Qed.

Lemma lastChar_cons (c : ascii) (s : string) :
  s <> "" -> Js.lastChar (String c s) = Js.lastChar s.
Proof. destruct s; [congruence | reflexivity]. Qed.

Lemma lastChar_append (a b : string) :
  b <> "" -> Js.lastChar (a +:+ b) = Js.lastChar b.
Proof.
  intros Hb. induction a as [|c a IH]; [reflexivity|].
  rewrite append_cons, lastChar_cons; [exact IH|].
  destruct a; [exact Hb | rewrite append_cons; discriminate].
Qed.

Lemma occursIn_append (c : ascii) (a b : string) :
  Js.occursIn c (a +:+ b) = Js.occursIn c a || Js.occursIn c b.
Proof.
  induction a as [|x a IH]; [reflexivity|].
  rewrite append_cons. simpl. rewrite IH. apply orb_assoc.
Qed.

(** The decimal rendering of an integer has no letter in it. *)
Lemma numberToString_no_B (n : Z) : Js.occursIn "B" (Js.numberToString n) = false.
Proof.
  assert (forall d, Js.occursIn "B" (NilEmpty.string_of_uint d) = false) as Hdigits.
  { induction d; simpl; try reflexivity; assumption. }
  assert (forall d, Js.occursIn "B" (NilZero.string_of_uint d) = false) as Huint.
  { intros [| | | | | | | | | |]; try reflexivity; apply Hdigits. }
  unfold Js.numberToString.
  destruct (Z.to_int n) as [d|d]; simpl; apply Huint.
Qed.

End StringFacts.

(** ** formatBytes *)

Section FormatBytes.

Lemma log2_k : Z.log2 k = 10.
Proof. reflexivity. Qed.


Lemma unitIndex_nonneg (bytes : Z) : 0 <= unitIndex bytes.
Proof.
  unfold unitIndex. rewrite log2_k.
  apply Z.div_pos; [apply Z.log2_nonneg | lia].
Qed.


Lemma unitIndex_lt_4 (bytes : Z) :
  0 < bytes -> (unitIndex bytes < 4 <-> bytes < 1024 ^ 4).
Proof.
  intros Hpos. unfold unitIndex. rewrite log2_k.
  change (1024 ^ 4) with (2 ^ 40).
  rewrite (Z.log2_lt_pow2 bytes 40 Hpos).
  pose proof (Z.mul_div_le (Z.log2 bytes) 10 ltac:(lia)).
  pose proof (Z.mul_succ_div_gt (Z.log2 bytes) 10 ltac:(lia)).
  lia.
Qed.

Lemma unitAt_in_sizes (i : Z) : 0 <= i < 4 -> In (unitAt i) sizes.
Proof.
  intros Hi.
  assert (i = 0 \/ i = 1 \/ i = 2 \/ i = 3) as [-> | [-> | [-> | ->]]] by lia;
    cbv; tauto.
Qed.

Lemma unitAt_out_of_bounds (i : Z) :
  4 <= i -> nth_error sizes (Z.to_nat i) = None /\ unitAt i = "undefined".
Proof.
  intros Hi.
  assert (nth_error sizes (Z.to_nat i) = None) as Hnone.
  { apply nth_error_None. simpl. lia. }
  split; [exact Hnone|]. unfold unitAt. now rewrite Hnone.
Qed.

Lemma unit_lastChar (u : string) : In u sizes -> Js.lastChar u = Some "B"%char.
Proof. simpl. intros [<- | [<- | [<- | [<- | []]]]]; reflexivity. Qed.

Lemma unit_has_B (u : string) : In u sizes -> Js.occursIn "B" u = true.
Proof. simpl. intros [<- | [<- | [<- | [<- | []]]]]; reflexivity. Qed.

Lemma numberPart_no_B (bytes : Z) : Js.occursIn "B" (numberPart bytes) = false.
Proof.
  unfold numberPart, hundredthsToString.
  repeat match goal with |- context [if ?b then _ else _] => destruct b end;
    rewrite ?occursIn_append, ?numberToString_no_B; reflexivity.
Qed.

Lemma unit_nonempty (u : string) : In u sizes -> u <> "".
Proof. simpl. intros [<- | [<- | [<- | [<- | []]]]]; discriminate. Qed.

End FormatBytes.

(** C10.  [formatBytes] gives a number followed by one of the four units
    exactly for the byte counts from 0 up to, and not including, 1024^4.
    From 1024^4 on the unit index is at least 4, the array has no element
    at that index, the result is the number followed by " undefined", no
    unit ends it, and the letter B, which every unit has, does not occur
    in it. *)
Theorem formatBytes_unit_only_below_1TiB (bytes : Z) (Hbytes : 0 <= bytes) :
  (bytes < 1024 ^ 4 ->
     exists u, In u sizes /\
       formatBytes bytes = (if bytes =? 0 then "0" else numberPart bytes) +:+ " " +:+ u)
  /\
  (1024 ^ 4 <= bytes ->
     4 <= unitIndex bytes
     /\ nth_error sizes (Z.to_nat (unitIndex bytes)) = None
     /\ formatBytes bytes = numberPart bytes +:+ " undefined"
     /\ (forall pre u, In u sizes -> formatBytes bytes <> pre +:+ u)
     /\ Js.occursIn "B" (formatBytes bytes) = false
     /\ (forall u, In u sizes -> Js.occursIn "B" u = true)).
Proof.
  split.
  - intros Hlt. unfold formatBytes.
    destruct (Z.eqb_spec bytes 0) as [->|Hne].
    + exists "B". split; [simpl; tauto | reflexivity].
    + destruct (Z.ltb_spec bytes 0) as [Hneg|_]; [lia|].
      exists (unitAt (unitIndex bytes)). split; [|reflexivity].
      apply unitAt_in_sizes. split; [apply unitIndex_nonneg|].
      apply unitIndex_lt_4; lia.
  - intros Hge.
    assert (4 <= unitIndex bytes) as Hidx.
    { destruct (Z_lt_le_dec (unitIndex bytes) 4) as [Hlt|]; [|assumption].
      apply unitIndex_lt_4 in Hlt; lia. }
    destruct (unitAt_out_of_bounds _ Hidx) as [Hnone Hundef].
    assert (formatBytes bytes = numberPart bytes +:+ " undefined") as Hfmt.
    { unfold formatBytes.
      destruct (Z.eqb_spec bytes 0) as [->|_]; [exfalso; apply Hge; reflexivity|].
      destruct (Z.ltb_spec bytes 0) as [Hneg|_]; [lia|].
      now rewrite Hundef. }
    split; [assumption|]. split; [assumption|]. split; [assumption|].
    split; [|split].
    + intros pre u Hu Heq.
      assert (Js.lastChar (formatBytes bytes) = Some "d"%char) as Hd.
      { rewrite Hfmt, lastChar_append by discriminate. reflexivity. }
      rewrite Heq, lastChar_append in Hd by now apply unit_nonempty.
      rewrite (unit_lastChar u Hu) in Hd. discriminate Hd.
    + rewrite Hfmt, occursIn_append, numberPart_no_B. reflexivity.
    + apply unit_has_B.
Qed.

Lemma formatBytes_unit_only_below_1TiB_witness :
  0 <= 1536 < 1024 ^ 4
  /\ (exists u, In u sizes /\ formatBytes 1536 = "1.5" +:+ " " +:+ u)
  /\ 0 <= 1024 ^ 4
  /\ formatBytes (1024 ^ 4) = "1 undefined".
Proof.
  assert (0 <= 1536 < 1024 ^ 4) as Hsmall by (split; [lia | reflexivity]).
  assert (0 <= 1024 ^ 4) as Hbig by (apply Z.pow_nonneg; lia).
  split; [exact Hsmall|]. split; [|split; [exact Hbig|]].
  - destruct (formatBytes_unit_only_below_1TiB 1536 (proj1 Hsmall)) as [Hlow _].
    exact (Hlow (proj2 Hsmall)).
  - destruct (formatBytes_unit_only_below_1TiB (1024 ^ 4) Hbig) as [_ Hhigh].
    destruct (Hhigh (Z.le_refl _)) as (_ & _ & Hfmt & _). exact Hfmt.
Defined.

Example formatBytes_1536 : formatBytes 1536 = "1.5 KB".
Proof. reflexivity. Qed.

Example formatBytes_rounds_up_to_1024 : formatBytes 1048575 = "1024 KB".
Proof. reflexivity. Qed.

Example formatBytes_last_GB : formatBytes (1024 ^ 4 - 1) = "1024 GB".
Proof. reflexivity. Qed.

(** ** checkFileSizeThresholds *)

Section Evaluator.

Variable thresholdMB : Z.
Variable warningPercentages : list Z.

(** The band is the exact quotient: a hundred bands make
    [thresholdBytes * percentage]. *)
Lemma warningThreshold_exact (tb percentage : Z) :
  (warningThreshold tb percentage * 100 == inject_Z (tb * percentage))%Q.
Proof. unfold warningThreshold. field. Qed.

(** The comparison of the loop, without the division. *)
Lemma band_reached (tb percentage sz : Z) :
  Qle_bool (warningThreshold tb percentage) (inject_Z sz)
  = (tb * percentage <=? 100 * sz).
Proof.
  unfold warningThreshold, Qle_bool, Qdiv, Qmult, Qinv, inject_Z. simpl.
  change (Z.pos (1 * 100)) with 100.
  destruct (Z.leb_spec (tb * percentage * 1 * 1) (sz * 100)),
           (Z.leb_spec (tb * percentage) (100 * sz)); lia.
Qed.

Lemma band_reached_iff (tb percentage sz : Z) :
  (warningThreshold tb percentage <= inject_Z sz)%Q <-> tb * percentage <= 100 * sz.
Proof. rewrite <- Qle_bool_iff, band_reached. apply Z.leb_le. Qed.



(** The loop pushes nothing, or one warning for a percentage of the list. *)
Lemma warningLoop_cases (tb sz : Z) (msg : Z -> string) (st : Evaluation) (wp : list Z) :
  warningLoop tb sz msg wp st = st
  \/ exists p, In p wp /\ warningLoop tb sz msg wp st = pushWarning (msg p) st.
Proof.
  induction wp as [|q wp IH]; simpl; [now left|].
  destruct (Qle_bool (warningThreshold tb q) (inject_Z sz)).
  - right. exists q. split; [now left | reflexivity].
  - destruct IH as [IH | (p & Hin & IH)]; [now left|].
    right. exists p. split; [now right | exact IH].
Qed.

Lemma addEvaluation_empty_r (st : Evaluation) : addEvaluation st emptyEvaluation = st.
Proof. destruct st. unfold addEvaluation. simpl. now rewrite !app_nil_r. Qed.

Lemma pushWarning_add (m : string) (st : Evaluation) :
  pushWarning m st = addEvaluation st (pushWarning m emptyEvaluation).
Proof. unfold pushWarning, addEvaluation. simpl. now rewrite app_nil_r. Qed.

Lemma pushAlert_add (m : string) (st : Evaluation) :
  pushAlert m st = addEvaluation st (pushAlert m emptyEvaluation).
Proof. unfold pushAlert, addEvaluation. simpl. now rewrite app_nil_r. Qed.

Lemma warningLoop_add (tb sz : Z) (msg : Z -> string) (st : Evaluation) (wp : list Z) :
  warningLoop tb sz msg wp st
  = addEvaluation st (warningLoop tb sz msg wp emptyEvaluation).
Proof.
  induction wp as [|q wp IH]; simpl.
  - now rewrite addEvaluation_empty_r.
  - destruct (Qle_bool (warningThreshold tb q) (inject_Z sz));
      [apply pushWarning_add | exact IH].
Qed.

(** The contribution of a file does not depend on what was found before. *)
Lemma checkFile_add (enableWarnings : bool) (st : Evaluation) (file : FileInfo) :
  checkFile thresholdMB enableWarnings warningPercentages st file
  = addEvaluation st (verdict thresholdMB enableWarnings warningPercentages file).
Proof.
  unfold verdict, checkFile.
  destruct (negb _); [|now rewrite addEvaluation_empty_r].
  destruct (_ <=? _); [apply pushAlert_add|].
  destruct enableWarnings; [apply warningLoop_add | now rewrite addEvaluation_empty_r].
Qed.

Lemma checkFile_caido (enableWarnings : bool) (st : Evaluation) (file : FileInfo) :
  Js.endsWith (name file) ".caido" = true ->
  checkFile thresholdMB enableWarnings warningPercentages st file = st.
Proof. intros H. unfold checkFile. now rewrite H. Qed.

Lemma checkFiles_skip_caido (enableWarnings : bool) (fs : list FileInfo) (st : Evaluation) :
  fold_left (checkFile thresholdMB enableWarnings warningPercentages) fs st
  = fold_left (checkFile thresholdMB enableWarnings warningPercentages)
      (List.filter (fun f => negb (Js.endsWith (name f) ".caido")) fs) st.
Proof.
  revert st. induction fs as [|f fs IH]; intros st; simpl; [reflexivity|].
  destruct (Js.endsWith (name f) ".caido") eqn:E; simpl.
  - rewrite checkFile_caido by exact E. apply IH.
  - apply IH.
Qed.

Lemma checkFiles_add (enableWarnings : bool) (fs : list FileInfo) (st : Evaluation) :
  fold_left (checkFile thresholdMB enableWarnings warningPercentages) fs st
  = fold_left addEvaluation
      (map (verdict thresholdMB enableWarnings warningPercentages) fs) st.
Proof.
  revert st. induction fs as [|f fs IH]; intros st; simpl; [reflexivity|].
  now rewrite checkFile_add, IH.
Qed.


End Evaluator.

(** *** Rounding the band to a double does not change a comparison *)

Section DoubleRounding.

Variables thresholdBytes percentage entitySize : Z.

(** The double the division [(thresholdBytes * percentage) / 100]
    returns. *)
Variable rounded : Q.

(** The product is an integer below 2^53, hence computed without error. *)
Hypothesis product_is_exact : 0 <= thresholdBytes * percentage < 2 ^ 53.

(** An integer quotient is a double. *)
Hypothesis integer_quotient_is_exact :
  (thresholdBytes * percentage) mod 100 = 0 ->
  (rounded == warningThreshold thresholdBytes percentage)%Q.

(** Rounding to nearest: the relative error is at most 2^-53. *)
Hypothesis nearest_below :
  (warningThreshold thresholdBytes percentage
   - warningThreshold thresholdBytes percentage * (1 # 9007199254740992) <= rounded)%Q.
Hypothesis nearest_above :
  (rounded <= warningThreshold thresholdBytes percentage
              + warningThreshold thresholdBytes percentage * (1 # 9007199254740992))%Q.

Lemma rounded_band_same_comparison :
  Qle_bool rounded (inject_Z entitySize)
  = Qle_bool (warningThreshold thresholdBytes percentage) (inject_Z entitySize).
Proof.
  rewrite band_reached.
  pose proof (warningThreshold_exact thresholdBytes percentage) as Hx.
  set (x := warningThreshold thresholdBytes percentage) in *.
  set (a := thresholdBytes * percentage) in *.
  pose proof (Z.div_mod a 100 ltac:(lia)) as Hdm.
  pose proof (Z.mod_pos_bound a 100 ltac:(lia)) as Hm.
  set (q := a / 100) in *. set (m := a mod 100) in *.
  assert (inject_Z a == 100 * inject_Z q + inject_Z m)%Q as Ha.
  { rewrite Hdm at 1. rewrite inject_Z_plus, inject_Z_mult. reflexivity. }
  assert (0 <= inject_Z a /\ inject_Z a < 9007199254740992)%Q as [Ha0 Ha1].
  { change 0%Q with (inject_Z 0). change 9007199254740992%Q with (inject_Z (2 ^ 53)).
    rewrite <- Zle_Qle, <- Zlt_Qlt. lia. }
  assert (0 <= inject_Z m /\ inject_Z m <= 99)%Q as [Hm0 Hm1].
  { change 0%Q with (inject_Z 0). change 99%Q with (inject_Z 99).
    rewrite <- !Zle_Qle. lia. }
  destruct (Z_le_gt_dec (q + 1) entitySize) as [Hhigh | Hlow].
  - (* the size is above the quotient *)
    assert (inject_Z q + 1 <= inject_Z entitySize)%Q as Hs.
    { change 1%Q with (inject_Z 1). rewrite <- inject_Z_plus, <- Zle_Qle. lia. }
    assert (Qle_bool rounded (inject_Z entitySize) = true) as ->.
    { apply Qle_bool_iff. lra. }
    symmetry. apply Z.leb_le. lia.
  - destruct (Z.eq_dec m 0) as [Hz | Hnz].
    + (* the quotient is an integer *)
      specialize (integer_quotient_is_exact Hz).
      assert (inject_Z m == 0)%Q as Hm2 by (now rewrite Hz).
      destruct (Z.eq_dec entitySize q) as [-> | Hne].
      * assert (Qle_bool rounded (inject_Z q) = true) as ->.
        { apply Qle_bool_iff. lra. }
        symmetry. apply Z.leb_le. lia.
      * assert (inject_Z entitySize + 1 <= inject_Z q)%Q as Hs.
        { change 1%Q with (inject_Z 1). rewrite <- inject_Z_plus, <- Zle_Qle. lia. }
        assert (Qle_bool rounded (inject_Z entitySize) = false) as ->.
        { apply not_true_is_false. rewrite Qle_bool_iff. lra. }
        symmetry. apply Z.leb_gt. lia.
    + (* the quotient lies strictly between two integers *)
      assert (inject_Z entitySize <= inject_Z q)%Q as Hs by (rewrite <- Zle_Qle; lia).
      assert (1 <= inject_Z m)%Q as Hm2.
      { change 1%Q with (inject_Z 1). rewrite <- Zle_Qle. lia. }
      assert (Qle_bool rounded (inject_Z entitySize) = false) as ->.
      { apply not_true_is_false. rewrite Qle_bool_iff. lra. }
      symmetry. apply Z.leb_gt. lia.
Qed.

End DoubleRounding.

(** With the percentages in the order [75, 90], an entity that reaches the
    90% band gets the warning of the 75% band: the loop stops at the first
    band reached, and the 75% band is below the 90% band. *)
Lemma ascending_order_stops_at_75 (tb sz : Z) (msg : Z -> string) (st : Evaluation) :
  0 <= tb ->
  (warningThreshold tb 90 <= inject_Z sz)%Q ->
  warningLoop tb sz msg defaultWarningPercentages st = pushWarning (msg 75) st.
Proof.
  intros Htb H90. apply band_reached_iff in H90.
  unfold defaultWarningPercentages. simpl.
  rewrite band_reached.
  destruct (Z.leb_spec (tb * 75) (100 * sz)); [reflexivity | lia].
Qed.

(** C1, evaluated on the code.  Threshold 100 MB, the percentages supplied
    as [75, 90], one ungrouped file of 96468992 bytes, which is exactly 92%
    of the threshold: the only warning is the one of the 75% band.  The
    same holds for a grouped total of that size. *)
Theorem at_92_percent_only_the_75_warning_fires :
  let file := mkFileInfo "capture.log" 96468992 "92 MB" in
  let grouped := mkFileInfo "project.caido" 96468992 "92 MB" in
  let ungroupedOnly := mkDirectoryInfo [file] 96468992 "92 MB" "/workspace" [] 0 "0 B" in
  let groupedOnly :=
    mkDirectoryInfo [grouped] 96468992 "92 MB" "/workspace" [grouped] 96468992 "92 MB" in
  100 * 96468992 = 92 * (100 * 1024 * 1024)
  /\ formatBytes 96468992 = "92 MB"
  /\ checkFileSizeThresholds ungroupedOnly 100 true [75; 90]
     = pushWarning (fileWarningMessage file 100 75) emptyEvaluation
  /\ checkFileSizeThresholds groupedOnly 100 true [75; 90]
     = pushWarning (combinedWarningMessage groupedOnly 100 75) emptyEvaluation
  /\ fileWarningMessage file 100 75 <> fileWarningMessage file 100 90
  /\ combinedWarningMessage groupedOnly 100 75 <> combinedWarningMessage groupedOnly 100 90.
Proof.
  cbv zeta. repeat split; try reflexivity; vm_compute; discriminate.
Qed.






(** The example of the specification: threshold 10 MB and a file of exactly
    10,485,760 bytes. *)
Example file_of_exactly_10MB_is_an_alert :
  let file := mkFileInfo "dump.bin" 10485760 (formatBytes 10485760) in
  let info := mkDirectoryInfo [file] 10485760 "10 MB" "/workspace" [] 0 "0 B" in
  alerts (checkFileSizeThresholds info 10 true [75; 90])
    = ["File " +:+ String (ascii_of_nat 34) "dump.bin"
         +:+ String (ascii_of_nat 34) " (10 MB) exceeds 10MB threshold"]
  /\ warnings (checkFileSizeThresholds info 10 true [75; 90]) = [].
Proof. split; reflexivity. Qed.


(** C3.  A file whose name ends with ".caido" leaves the evaluation
    unchanged when the loop over the files reaches it, whatever its size;
    the combined check does nothing when [caidoFiles] is empty; and the
    result of the function is the result of the combined check followed,
    file by file, by the verdict on each file that is not a ".caido" file,
    a verdict that depends on that file alone. *)
Theorem caido_files_are_checked_only_in_combination
    (directoryInfo : DirectoryInfo) (thresholdMB : Z) (enableWarnings : bool)
    (warningPercentages : list Z) :
  (forall file st,
     Js.endsWith (name file) ".caido" = true ->
     checkFile thresholdMB enableWarnings warningPercentages st file = st)
  /\ (caidoFiles directoryInfo = [] ->
      forall st,
        checkCombined directoryInfo thresholdMB enableWarnings warningPercentages st = st)
  /\ checkFileSizeThresholds directoryInfo thresholdMB enableWarnings warningPercentages
     = fold_left addEvaluation
         (map (verdict thresholdMB enableWarnings warningPercentages)
            (List.filter (fun f => negb (Js.endsWith (name f) ".caido"))
               (files directoryInfo)))
         (checkCombined directoryInfo thresholdMB enableWarnings warningPercentages
            emptyEvaluation).
Proof.
  split; [|split].
  - intros file st Hcaido. now apply checkFile_caido.
  - intros Hnil st. unfold checkCombined. now rewrite Hnil.
  - unfold checkFileSizeThresholds.
    rewrite checkFiles_skip_caido. apply checkFiles_add.
Qed.

Lemma caido_files_are_checked_only_in_combination_witness :
  let big := mkFileInfo "history.caido" 20971520 "20 MB" in
  let info := mkDirectoryInfo [big] 20971520 "20 MB" "/workspace" [] 0 "0 B" in
  Js.endsWith (name big) ".caido" = true
  /\ 10 * 1024 * 1024 <= size big
  /\ caidoFiles info = []
  /\ checkFile 10 true [75; 90] emptyEvaluation big = emptyEvaluation
  /\ checkCombined info 10 true [75; 90] emptyEvaluation = emptyEvaluation.
Proof.
  intros big info.
  destruct (caido_files_are_checked_only_in_combination info 10 true [75; 90])
    as (Hfile & Hcombined & _).
  split; [reflexivity|]. split; [simpl; lia|]. split; [reflexivity|].
  split.
  - exact (Hfile big emptyEvaluation eq_refl).
  - exact (Hcombined eq_refl emptyEvaluation).
Defined.



(** ** The scan *)


Section Scan.

Lemma sumOf_app (a b : list Z) : sumOf (a ++ b) = sumOf a + sumOf b.
Proof. induction a as [|x a IH]; simpl; [reflexivity | rewrite IH; lia]. Qed.

Lemma sumSizes_from (l : list FileInfo) (a : Z) :
  fold_left (fun total file => total + size file) l a = a + sumOf (map size l).
Proof.
  revert a. induction l as [|f l IH]; intros a; simpl; [lia|].
  rewrite IH. lia.
Qed.

Lemma sumSizes_sumOf (l : list FileInfo) : sumSizes l = sumOf (map size l).
Proof. unfold sumSizes. now rewrite sumSizes_from. Qed.

Lemma insertBySize_sum (f : FileInfo) (l : list FileInfo) :
  sumOf (map size (insertBySize f l)) = size f + sumOf (map size l).
Proof.
  induction l as [|g l IH]; simpl; [reflexivity|].
  destruct (size f <? size g); simpl; [rewrite IH|]; lia.
Qed.

Lemma sortBySizeDesc_sum (l : list FileInfo) :
  sumOf (map size (sortBySizeDesc l)) = sumOf (map size l).
Proof.
  induction l as [|f l IH]; simpl; [reflexivity|].
  now rewrite insertBySize_sum, IH.
Qed.

Lemma insertBySize_perm (f : FileInfo) (l : list FileInfo) :
  Permutation (insertBySize f l) (f :: l).
Proof.
  induction l as [|g l IH]; simpl; [reflexivity|].
  destruct (size f <? size g); [|reflexivity].
  rewrite IH. apply perm_swap.
Qed.

Lemma sortBySizeDesc_perm (l : list FileInfo) : Permutation (sortBySizeDesc l) l.
Proof.
  induction l as [|f l IH]; simpl; [reflexivity|].
  now rewrite insertBySize_perm, IH.
Qed.

Lemma insertBySize_sorted (f : FileInfo) (l : list FileInfo) :
  Sorted (fun a b => size b <= size a) l ->
  Sorted (fun a b => size b <= size a) (insertBySize f l).
Proof.
  induction 1 as [|g l Hl IH Hhd]; simpl; [repeat constructor|].
  destruct (Z.ltb_spec (size f) (size g)) as [Hlt | Hge].
  - constructor; [exact IH|].
    destruct l as [|g' l]; simpl.
    + constructor. lia.
    + inversion Hhd; subst.
      destruct (size f <? size g'); constructor; [assumption | lia].
  - constructor; [now constructor|]. constructor. exact Hge.
Qed.

(** The files of an inventory are in descending order of size. *)
Lemma sortBySizeDesc_sorted (l : list FileInfo) :
  Sorted (fun a b => size b <= size a) (sortBySizeDesc l).
Proof.
  induction l as [|f l IH]; simpl; [constructor | now apply insertBySize_sorted].
Qed.

Lemma filter_is_sublist {A : Type} (p : A -> bool) (l : list A) :
  sublist (List.filter p l) l.
Proof.
  induction l as [|x l IH]; simpl; [constructor|].
  destruct (p x); now constructor.
Qed.

Lemma scanEntry_directory (relativePath entryName : string) (entries : list Dirent)
    (st : ScanState) :
  scanEntry relativePath (Directory entryName (Some entries)) st
  = scanDirectory (Some entries) (displayNameOf relativePath entryName) st.
Proof.
  simpl. revert st.
  induction entries as [|e entries IH]; intros st; simpl; [reflexivity | apply IH].
Qed.

Lemma scanEntry_totalIsSum (e : Dirent) :
  forall relativePath st, totalIsSum st -> totalIsSum (scanEntry relativePath e st).
Proof.
  induction e as [n [sz|] | n | n es IH | n] using Dirent_tree_ind;
    intros relativePath st Hst; try exact Hst.
  - unfold totalIsSum in *. simpl.
    rewrite map_app, sumOf_app, Hst. simpl. lia.
  - rewrite scanEntry_directory. simpl.
    revert st Hst. induction IH as [|e es He _ IHes]; intros st Hst; simpl.
    + exact Hst.
    + apply IHes. now apply He.
Qed.

Lemma scanDirectory_totalIsSum (listing : option (list Dirent)) (relativePath : string)
    (st : ScanState) :
  totalIsSum st -> totalIsSum (scanDirectory listing relativePath st).
Proof.
  intros Hst. destruct listing as [entries|]; simpl; [|exact Hst].
  revert st Hst. induction entries as [|e entries IH]; intros st Hst; simpl.
  - exact Hst.
  - apply IH. now apply scanEntry_totalIsSum.
Qed.

Lemma inventoryOf_invariant (path : string) (st : ScanState) :
  totalIsSum st -> InventoryInvariant (inventoryOf path st).
Proof.
  intros Hst. split; simpl.
  - rewrite sortBySizeDesc_sum. exact Hst.
  - reflexivity.
  - apply sumSizes_sumOf.
  - apply filter_is_sublist.
Qed.

Lemma emptyInventory_invariant (path : string) : InventoryInvariant (emptyInventory path).
Proof. split; simpl; [reflexivity | reflexivity | reflexivity | constructor]. Qed.

Lemma emptyInventory_isEmpty (path : string) : isEmptyInventory (emptyInventory path).
Proof. repeat split. Qed.

Lemma scan_invariant (h : Host) (path : string) :
  InventoryInvariant
    (inventoryOf path (scanDirectory (readdir h path) "" (mkScanState [] 0))).
Proof.
  apply inventoryOf_invariant, scanDirectory_totalIsSum. reflexivity.
Qed.

End Scan.

(** C4.  The inventory built from any directory tree, and so the inventory
    either variant of [getWorkspaceFiles] returns on any host, satisfies
    the invariant: [totalSize] is the sum of the sizes of [files],
    [caidoFiles] is the list of the files whose name ends with ".caido",
    in the order of [files] and hence a sublist of it, and
    [caidoTotalSize] is the sum of their sizes.  The tree is arbitrary, so
    the order in which the walk meets the files is. *)
Theorem scanned_inventory_invariant (h : Host) (workspacePath : option string) :
  (forall listing path,
     InventoryInvariant
       (inventoryOf path (scanDirectory listing "" (mkScanState [] 0))))
  /\ (exists info events,
        ProjectScan.getWorkspaceFiles h = Normal (info, events)
        /\ InventoryInvariant info)
  /\ (exists info events,
        PathScan.getWorkspaceFiles h workspacePath = Normal (info, events)
        /\ InventoryInvariant info).
Proof.
  assert (forall path,
            exists info events,
              tryCatch (scanAndReport h path) (emptyInventory "error", [])
              = Normal (info, events) /\ InventoryInvariant info) as Hscan_error.
  { intros path. unfold scanAndReport.
    destruct (send h _); simpl; eexists _, _; split; try reflexivity;
      [apply scan_invariant | apply emptyInventory_invariant]. }
  assert (forall path,
            exists info events,
              tryCatch (PathScan.scanPathOrEmpty h path) (emptyInventory "error", [])
              = Normal (info, events) /\ InventoryInvariant info) as Hpath.
  { intros path. unfold PathScan.scanPathOrEmpty.
    destruct (pathExists h path); simpl; [apply Hscan_error|].
    eexists _, _; split; [reflexivity | apply emptyInventory_invariant]. }
  assert (exists info events,
            tryCatch (PathScan.viaCurrentProject h) (emptyInventory "error", [])
            = Normal (info, events) /\ InventoryInvariant info) as Hproject.
  { unfold PathScan.viaCurrentProject.
    destruct (getCurrent h) as [[project|]|]; simpl.
    - destruct (pathExists h _); [apply Hpath|].
      destruct (metaPath h) as [path|]; simpl; [apply Hpath|].
      eexists _, _; split; [reflexivity | apply emptyInventory_invariant].
    - eexists _, _; split; [reflexivity | apply emptyInventory_invariant].
    - eexists _, _; split; [reflexivity | apply emptyInventory_invariant]. }
  split; [|split].
  - intros listing path.
    apply inventoryOf_invariant, scanDirectory_totalIsSum. reflexivity.
  - unfold ProjectScan.getWorkspaceFiles.
    destruct (getCurrent h) as [[project|]|]; simpl.
    + destruct (pathExists h (getPath project)); simpl.
      * unfold scanAndReport.
        destruct (send h _); simpl; eexists _, _; split; try reflexivity;
          [apply scan_invariant | apply emptyInventory_invariant].
      * eexists _, _; split; [reflexivity | apply emptyInventory_invariant].
    + eexists _, _; split; [reflexivity | apply emptyInventory_invariant].
    + eexists _, _; split; [reflexivity | apply emptyInventory_invariant].
  - unfold PathScan.getWorkspaceFiles.
    destruct workspacePath as [w|]; [|exact Hproject].
    destruct (0 <? String.length w)%nat; [apply Hpath | exact Hproject].
Qed.

Example scan_of_a_small_tree :
  let tree :=
    Some [RegularFile "notes.txt" (Some 3);
          Directory "projects"
            (Some [RegularFile "a.caido" (Some 5);
                   RegularFile "locked" None;
                   Directory "private" None;
                   RegularFile "b.caido" (Some 7)]);
          OtherEntry "socket"] in
  let info := inventoryOf "/w" (scanDirectory tree "" (mkScanState [] 0)) in
  map name (files info) = ["projects/b.caido"; "projects/a.caido"; "notes.txt"]
  /\ totalSize info = 15
  /\ map name (caidoFiles info) = ["projects/b.caido"; "projects/a.caido"]
  /\ caidoTotalSize info = 12.
Proof. repeat split. Qed.

(** ** expandPath *)

(** C6, evaluated on the code.  A backslash followed by a space, as a
    terminal writes a space inside a path, is left in place: the pattern of
    [expandPath] asks for two backslashes before the space. *)
Theorem expandPath_keeps_an_escaped_space (h : Host) :
  PathScan.expandPath h "/tmp/My\ Folder" = "/tmp/My\ Folder"
  /\ PathScan.expandPath h "/tmp/My\\ Folder" = "/tmp/My Folder"
  /\ String.length "\ " = 2%nat
  /\ String.length PathScan.escapedSpacePattern = 3%nat.
Proof. repeat split. Qed.

Example expandPath_tilde :
  let h := mkHost Throw Throw (fun _ => Throw) "linux" "/home/ada" (fun _ => false)
             (fun _ => None) in
  PathScan.expandPath h "  ~/caido files  " = "/home/ada/caido files".
Proof. reflexivity. Qed.

(** ** getWorkspaceFiles never raises *)

(** C7.  Both variants of [getWorkspaceFiles] return on every host.  When
    there is no current project, when the path to scan does not exist, and
    when a call into the host throws, the result is an inventory without
    files and with zero totals, whose [scanPath] is the path tried, the
    empty string or ["error"], and no event is sent. *)
Theorem getWorkspaceFiles_returns_an_empty_inventory_on_failure (h : Host) :
  (* the project directory variant *)
  (exists result, ProjectScan.getWorkspaceFiles h = Normal result)
  /\ (getCurrent h = Throw -> ProjectScan.getWorkspaceFiles h = Normal (EMPTY_INFO, []))
  /\ (getCurrent h = Normal None ->
      ProjectScan.getWorkspaceFiles h = Normal (EMPTY_INFO, []))
  /\ (forall project,
        getCurrent h = Normal (Some project) ->
        pathExists h (getPath project) = false ->
        ProjectScan.getWorkspaceFiles h = Normal (EMPTY_INFO, []))
  /\ (forall project,
        getCurrent h = Normal (Some project) ->
        (forall event, send h event = Throw) ->
        ProjectScan.getWorkspaceFiles h = Normal (EMPTY_INFO, []))
  (* the variant with an explicit path *)
  /\ (forall workspacePath,
        exists result, PathScan.getWorkspaceFiles h workspacePath = Normal result)
  /\ (forall w,
        w <> "" ->
        pathExists h (PathScan.expandPath h w) = false ->
        PathScan.getWorkspaceFiles h (Some w)
        = Normal (emptyInventory (PathScan.expandPath h w), []))
  /\ (forall workspacePath,
        workspacePath = None \/ workspacePath = Some "" ->
        (getCurrent h = Normal None ->
         PathScan.getWorkspaceFiles h workspacePath = Normal (emptyInventory "", []))
        /\ (getCurrent h = Throw ->
            PathScan.getWorkspaceFiles h workspacePath
            = Normal (emptyInventory "error", []))
        /\ (forall project,
              getCurrent h = Normal (Some project) ->
              pathExists h (PathScan.getCaidoProjectsDir h +:+ "/" +:+ getId project)
              = false ->
              (metaPath h = Throw ->
               PathScan.getWorkspaceFiles h workspacePath
               = Normal (emptyInventory "error", []))
              /\ (forall path,
                    metaPath h = Normal path ->
                    pathExists h path = false ->
                    PathScan.getWorkspaceFiles h workspacePath
                    = Normal (emptyInventory path, []))))
  /\ (forall workspacePath,
        (forall event, send h event = Throw) ->
        exists path,
          PathScan.getWorkspaceFiles h workspacePath = Normal (emptyInventory path, []))
  /\ (forall path, isEmptyInventory (emptyInventory path))
  /\ isEmptyInventory EMPTY_INFO.
Proof.
  assert (forall A (body : Completion A) handler, exists r, tryCatch body handler = Normal r)
    as Htotal.
  { intros A [a|] handler; simpl; eauto. }
  assert (forall w : string, w <> "" -> (0 <? String.length w)%nat = true) as Hlen.
  { intros [|c w] Hw; [congruence | reflexivity]. }
  assert (forall workspacePath,
            workspacePath = None \/ workspacePath = Some "" ->
            PathScan.getWorkspaceFiles h workspacePath
            = tryCatch (PathScan.viaCurrentProject h) (emptyInventory "error", []))
    as Hvia.
  { intros workspacePath [-> | ->]; reflexivity. }
  assert (forall path,
            (forall event, send h event = Throw) ->
            exists p,
              tryCatch (PathScan.scanPathOrEmpty h path) (emptyInventory "error", [])
              = Normal (emptyInventory p, [])) as Hsend.
  { intros path Hthrow. unfold PathScan.scanPathOrEmpty, scanAndReport.
    destruct (pathExists h path); simpl; [|eauto].
    rewrite Hthrow. simpl. eauto. }
  repeat apply conj.
  - apply Htotal.
  - intros Hthrow. unfold ProjectScan.getWorkspaceFiles. now rewrite Hthrow.
  - intros Hnone. unfold ProjectScan.getWorkspaceFiles. now rewrite Hnone.
  - intros project Hproject Hmissing. unfold ProjectScan.getWorkspaceFiles.
    rewrite Hproject. simpl. now rewrite Hmissing.
  - intros project Hproject Hthrow. unfold ProjectScan.getWorkspaceFiles.
    rewrite Hproject. simpl.
    destruct (pathExists h (getPath project)); simpl; [|reflexivity].
    unfold scanAndReport. now rewrite Hthrow.
  - intros workspacePath. apply Htotal.
  - intros w Hw Hmissing. unfold PathScan.getWorkspaceFiles.
    rewrite (Hlen w Hw). unfold PathScan.scanPathOrEmpty. now rewrite Hmissing.
  - intros workspacePath Hwp. rewrite (Hvia _ Hwp).
    unfold PathScan.viaCurrentProject. split; [|split].
    + intros Hnone. now rewrite Hnone.
    + intros Hthrow. now rewrite Hthrow.
    + intros project Hproject Hmissing. rewrite Hproject. simpl. rewrite Hmissing.
      split.
      * intros Hthrow. now rewrite Hthrow.
      * intros path Hpath Hpathmissing. rewrite Hpath. simpl.
        unfold PathScan.scanPathOrEmpty. now rewrite Hpathmissing.
  - intros workspacePath Hthrow.
    unfold PathScan.getWorkspaceFiles.
    destruct workspacePath as [w|].
    + destruct (0 <? String.length w)%nat; [now apply Hsend|].
      unfold PathScan.viaCurrentProject.
      destruct (getCurrent h) as [[project|]|]; simpl; eauto.
      destruct (pathExists h _); [now apply Hsend|].
      destruct (metaPath h) as [path|]; simpl; [now apply Hsend | eauto].
    + unfold PathScan.viaCurrentProject.
      destruct (getCurrent h) as [[project|]|]; simpl; eauto.
      destruct (pathExists h _); [now apply Hsend|].
      destruct (metaPath h) as [path|]; simpl; [now apply Hsend | eauto].
  - apply emptyInventory_isEmpty.
  - reflexivity.
  - reflexivity.
  - reflexivity.
  - reflexivity.
Qed.

Lemma getWorkspaceFiles_returns_an_empty_inventory_on_failure_witness :
  let h := mkHost Throw Throw (fun _ => Throw) "linux" "/home/ada" (fun _ => false)
             (fun _ => None) in
  getCurrent h = Throw
  /\ ProjectScan.getWorkspaceFiles h = Normal (EMPTY_INFO, [])
  /\ "/nowhere" <> ""
  /\ pathExists h (PathScan.expandPath h "/nowhere") = false
  /\ PathScan.getWorkspaceFiles h (Some "/nowhere")
     = Normal (emptyInventory "/nowhere", []).
Proof.
  intros h.
  destruct (getWorkspaceFiles_returns_an_empty_inventory_on_failure h)
    as (_ & Hthrow & _ & _ & _ & _ & Hmissing & _).
  split; [reflexivity|].
  split; [exact (Hthrow eq_refl)|].
  assert ("/nowhere" <> "") as Hne by discriminate.
  split; [exact Hne|].
  split; [reflexivity|].
  exact (Hmissing "/nowhere" Hne eq_refl).
Defined.

(** ** The alert escalator *)

Module EscalatorFacts.

Import Escalator.

(** *** What each operation does to the dialogs shown and to the ignored set *)

Section Fields.

Lemma setCount_fields (counter : positive) (v : Z) (s : State) :
  displayed (setCount counter v s) = displayed s
  /\ ignoredAlerts (setCount counter v s) = ignoredAlerts s.
Proof. unfold setCount. by destruct (store s !! counter). Qed.

Lemma cancelTimerOf_fields (counter : positive) (s : State) :
  displayed (cancelTimerOf counter s) = displayed s
  /\ ignoredAlerts (cancelTimerOf counter s) = ignoredAlerts s.
Proof.
  unfold cancelTimerOf. destruct (store s !! counter) as [c|]; [|done].
  by destruct (intervalId c).
Qed.

Lemma counterFor_fields (key : string) (s : State) :
  displayed (counterFor key s).1 = displayed s
  /\ ignoredAlerts (counterFor key s).1 = ignoredAlerts s.
Proof. unfold counterFor. by destruct (alertCounters s !! key). Qed.

Lemma showSingleAlert_displayed (alert : ThresholdAlert) (counter : positive)
    (number : Z) (result : bool) (s : State) :
  displayed (showSingleAlert alert counter number result s)
  = (displayed s ++ [mkDisplay alert number])%list.
Proof.
  unfold showSingleAlert. destruct result; simpl.
  - by destruct (number =? 1).
  - by rewrite (proj1 (cancelTimerOf_fields _ _)).
Qed.

Lemma showSingleAlert_ignored (alert : ThresholdAlert) (counter : positive)
    (number : Z) (result : bool) (s : State) :
  ignoredAlerts (showSingleAlert alert counter number result s)
  = if result then ignoredAlerts s else {[alertKey alert]} ∪ ignoredAlerts s.
Proof.
  unfold showSingleAlert. destruct result; simpl.
  - by destruct (number =? 1).
  - by rewrite (proj2 (cancelTimerOf_fields _ _)).
Qed.

Lemma displaysOf_app (key : string) (l1 l2 : list Display) :
  displaysOf key (l1 ++ l2) = (displaysOf key l1 ++ displaysOf key l2)%list.
Proof. apply List.filter_app. Qed.

Lemma displaysOf_other (key : string) (alert : ThresholdAlert) (number : Z) :
  alertKey alert <> key -> displaysOf key [mkDisplay alert number] = [].
Proof.
  intros Hne. unfold displaysOf. simpl.
  by destruct (String.eqb_spec (alertKey alert) key).
Qed.

Lemma displaysOf_own (alert : ThresholdAlert) (number : Z) :
  displaysOf (alertKey alert) [mkDisplay alert number] = [mkDisplay alert number].
Proof. unfold displaysOf. simpl. by rewrite String.eqb_refl. Qed.

End Fields.

(** *** Steps that concern another identity leave an escalation alone *)

Section Frame.

Variable alert : ThresholdAlert.
Variables id counter : positive.
Variable n : Z.

Lemma escalating_setCount (s : State) (counter' : positive) (v : Z) :
  escalating alert id counter n s ->
  counter' <> counter ->
  escalating alert id counter n (setCount counter' v s).
Proof.
  intros [Hrange Hign Hreg Hcnt Hitv Hoth Hhand Hnid Hnobj] Hne. unfold setCount.
  destruct (store s !! counter') as [c|] eqn:E; [|by split].
  split; simpl; try done.
  - by rewrite lookup_insert_ne.
  - intros counter'' c'. rewrite lookup_insert.
    destruct (decide (counter' = counter'')) as [<-|_]; [|by eauto].
    intros [= <-] _. simpl. by eauto.
Qed.

Lemma escalating_cancelTimerOf (s : State) (counter' : positive) :
  escalating alert id counter n s ->
  counter' <> counter ->
  escalating alert id counter n (cancelTimerOf counter' s).
Proof.
  intros [Hrange Hign Hreg Hcnt Hitv Hoth Hhand Hnid Hnobj] Hne. unfold cancelTimerOf.
  destruct (store s !! counter') as [c|] eqn:E; [|by split].
  destruct (intervalId c) as [id'|] eqn:Eid; [|by split].
  assert (id' <> id) as Hid.
  { intros ->. by eapply Hhand. }
  split; simpl; try done.
  - by rewrite lookup_insert_ne.
  - by rewrite lookup_delete_ne.
  - intros id'' t. rewrite lookup_delete.
    destruct (decide (id' = id'')); [done | by eauto].
  - intros counter'' c'. rewrite lookup_insert.
    destruct (decide (counter' = counter'')) as [<-|_]; [|by eauto].
    by intros [= <-] _.
Qed.

Lemma escalating_confirm (s : State) (alert' : ThresholdAlert) (number : Z) :
  escalating alert id counter n s ->
  escalating alert id counter n (confirm alert' number s).
Proof. intros [Hrange Hign Hreg Hcnt Hitv Hoth Hhand Hnid Hnobj]. by split. Qed.

Lemma escalating_setFlashBanner (s : State) (v : option ThresholdAlert) :
  escalating alert id counter n s ->
  escalating alert id counter n (setFlashBanner v s).
Proof. intros [Hrange Hign Hreg Hcnt Hitv Hoth Hhand Hnid Hnobj]. by split. Qed.

Lemma escalating_ignore (s : State) (key' : string) :
  escalating alert id counter n s ->
  key' <> alertKey alert ->
  escalating alert id counter n (setIgnored ({[key']} ∪ ignoredAlerts s) s).
Proof.
  intros [Hrange Hign Hreg Hcnt Hitv Hoth Hhand Hnid Hnobj] Hne. split; simpl; try done.
  rewrite not_elem_of_union, not_elem_of_singleton. by split.
Qed.

Lemma escalating_showSingleAlert (s : State) (alert' : ThresholdAlert)
    (counter' : positive) (number : Z) (result : bool) :
  escalating alert id counter n s ->
  alertKey alert' <> alertKey alert ->
  counter' <> counter ->
  escalating alert id counter n (showSingleAlert alert' counter' number result s).
Proof.
  intros Hesc Hkey Hcounter. unfold showSingleAlert.
  destruct result; simpl.
  - destruct (number =? 1);
      [apply escalating_setFlashBanner|]; by apply escalating_confirm.
  - apply escalating_cancelTimerOf; [|done].
    apply (escalating_ignore (confirm alert' number s)); [|done].
    by apply escalating_confirm.
Qed.

Lemma escalating_armInterval (s : State) (alert' : ThresholdAlert) (counter' : positive) :
  escalating alert id counter n s ->
  alertKey alert' <> alertKey alert ->
  counter' <> counter ->
  escalating alert id counter n (armInterval alert' counter' s).
Proof.
  intros [Hrange Hign Hreg Hcnt Hitv Hoth Hhand Hnid Hnobj] Hkey Hcounter. unfold armInterval.
  assert (nextInterval s <> id) as Hid by lia.
  split; simpl; try done.
  - destruct (store s !! counter'); [by rewrite lookup_insert_ne | done].
  - by rewrite lookup_insert_ne.
  - intros id' t. rewrite lookup_insert.
    destruct (decide (nextInterval s = id')) as [<-|_]; [|by eauto].
    by intros [= <-] _.
  - intros counter'' c'. destruct (store s !! counter') as [c|]; [|by eauto].
    rewrite lookup_insert.
    destruct (decide (counter' = counter'')) as [<-|_]; [|by eauto].
    intros [= <-] _. simpl. congruence.
  - lia.
Qed.

Lemma escalating_counterFor (s s' : State) (key' : string) (counter' : positive) :
  escalating alert id counter n s ->
  key' <> alertKey alert ->
  counterFor key' s = (s', counter') ->
  escalating alert id counter n s' /\ counter' <> counter.
Proof.
  intros Hesc Hkey. unfold counterFor.
  destruct (alertCounters s !! key') as [c|] eqn:E; intros [= <- <-].
  - split; [done|]. intros ->. destruct Hesc as [_ _ Hreg _ _ _ _ _ _]. by apply Hkey, Hreg.
  - destruct Hesc as [Hrange Hign Hreg Hcnt Hitv Hoth Hhand Hnid Hnobj].
    assert (nextObject s <> counter) as Hfresh by lia.
    split; [|done]. split; simpl; try done.
    + intros key. rewrite lookup_insert.
      destruct (decide (key' = key)) as [<-|_]; [|by eauto].
      by intros [= ?].
    + by rewrite lookup_insert_ne.
    + intros counter'' c'. rewrite lookup_insert.
      destruct (decide (nextObject s = counter'')) as [<-|_]; [|by eauto].
      by intros [= <-] _.
    + lia.
Qed.

End Frame.

(** *** Well-formed states *)

Section WellFormed.

Lemma wellFormed_init : wellFormed init.
Proof. split; simpl; intros *; by rewrite lookup_empty. Qed.

Lemma wellFormed_setCount (counter : positive) (v : Z) (s : State) :
  wellFormed s -> wellFormed (setCount counter v s).
Proof.
  intros [Hreg Hitv Hhand]. unfold setCount.
  destruct (store s !! counter) as [c|] eqn:E; [|by split].
  split; simpl; try done.
  intros counter' c' id. rewrite lookup_insert.
  destruct (decide (counter = counter')) as [<-|_]; [|by eauto].
  intros [= <-]. simpl. by eauto.
Qed.

Lemma wellFormed_cancelTimerOf (counter : positive) (s : State) :
  wellFormed s -> wellFormed (cancelTimerOf counter s).
Proof.
  intros [Hreg Hitv Hhand]. unfold cancelTimerOf.
  destruct (store s !! counter) as [c|] eqn:E; [|by split].
  destruct (intervalId c) as [id|] eqn:Eid; [|by split].
  split; simpl; try done.
  - intros id' t. rewrite lookup_delete.
    destruct (decide (id = id')); [done | by eauto].
  - intros counter' c' id'. rewrite lookup_insert.
    destruct (decide (counter = counter')) as [<-|_]; [|by eauto].
    by intros [= <-].
Qed.

Lemma wellFormed_showSingleAlert (alert : ThresholdAlert) (counter : positive)
    (number : Z) (result : bool) (s : State) :
  wellFormed s -> wellFormed (showSingleAlert alert counter number result s).
Proof.
  intros Hwf. unfold showSingleAlert. destruct result; simpl.
  - destruct (number =? 1); destruct Hwf; by split.
  - apply wellFormed_cancelTimerOf. destruct Hwf; by split.
Qed.

Lemma wellFormed_armInterval (alert : ThresholdAlert) (counter : positive) (s : State) :
  wellFormed s ->
  (counter < nextObject s)%positive ->
  wellFormed (armInterval alert counter s).
Proof.
  intros [Hreg Hitv Hhand] Hcounter. unfold armInterval.
  split; simpl; try done.
  - intros id t. rewrite lookup_insert.
    destruct (decide (nextInterval s = id)) as [<-|_].
    + intros [= <-]. simpl. split; [lia | done].
    + intros Ht. destruct (Hitv _ _ Ht). split; [lia | done].
  - intros counter' c' id.
    destruct (store s !! counter) as [c|].
    + rewrite lookup_insert.
      destruct (decide (counter = counter')) as [<-|_].
      * intros [= <-]. simpl. intros [= <-]. lia.
      * intros Hc Hid. pose proof (Hhand _ _ _ Hc Hid). lia.
    + intros Hc Hid. pose proof (Hhand _ _ _ Hc Hid). lia.
Qed.

Lemma wellFormed_counterFor (key : string) (s : State) :
  wellFormed s ->
  wellFormed (counterFor key s).1
  /\ ((counterFor key s).2 < nextObject (counterFor key s).1)%positive
  /\ nextObject (setCount (counterFor key s).2 1 (counterFor key s).1)
     = nextObject (counterFor key s).1.
Proof.
  intros [Hreg Hitv Hhand]. unfold counterFor.
  destruct (alertCounters s !! key) as [counter|] eqn:E; simpl.
  - split; [by split|]. split; [by eauto|].
    unfold setCount. by destruct (store s !! counter).
  - split; [|split; [lia|]].
    + split; simpl.
      * intros key' counter'. rewrite lookup_insert.
        destruct (decide (key = key')) as [<-|_].
        -- intros [= <-]. lia.
        -- intros Hk. pose proof (Hreg _ _ Hk). lia.
      * intros id t Ht. destruct (Hitv _ _ Ht). split; [done | lia].
      * intros counter' c' id. rewrite lookup_insert.
        destruct (decide (nextObject s = counter')) as [<-|_]; [|by eauto].
        by intros [= <-].
    + unfold setCount. simpl. by rewrite lookup_insert_eq.
Qed.

Lemma nextObject_showSingleAlert (alert : ThresholdAlert) (counter : positive)
    (number : Z) (result : bool) (s : State) :
  nextObject (showSingleAlert alert counter number result s) = nextObject s.
Proof.
  unfold showSingleAlert, cancelTimerOf. destruct result; simpl.
  - by destruct (number =? 1).
  - destruct (store s !! counter) as [c|]; [|done]. by destruct (intervalId c).
Qed.

Lemma wellFormed_showThresholdAlert (alert : ThresholdAlert) (result : bool) (s : State) :
  wellFormed s -> wellFormed (showThresholdAlert alert result s).
Proof.
  intros Hwf. unfold showThresholdAlert.
  destruct (decide (alertKey alert ∈ ignoredAlerts s)); [done|].
  destruct (wellFormed_counterFor (alertKey alert) s Hwf) as (Hwf' & Hlt & Hnext).
  destruct (counterFor (alertKey alert) s) as [s' counter]. simpl in *.
  pose proof (wellFormed_showSingleAlert alert counter 1 result _
                (wellFormed_setCount counter 1 _ Hwf')) as Hwf''.
  destruct (decide _); [done|].
  apply wellFormed_armInterval; [done|].
  by rewrite nextObject_showSingleAlert, Hnext.
Qed.

Lemma wellFormed_fire (id : positive) (result : bool) (s : State) :
  wellFormed s -> wellFormed (fire id result s).
Proof.
  intros Hwf. unfold fire.
  destruct (intervals s !! id) as [t|]; [|done].
  destruct (decide _); [by apply wellFormed_cancelTimerOf|].
  destruct (store s !! timerCounter t) as [c|]; [|done].
  pose proof (wellFormed_showSingleAlert (timerAlert t) (timerCounter t) (count c + 1)
                result _ (wellFormed_setCount (timerCounter t) (count c + 1) _ Hwf))
    as Hwf'.
  destruct (store _ !! timerCounter t) as [c'|]; [|done].
  destruct (3 <=? count c'); [by apply wellFormed_cancelTimerOf | done].
Qed.

(** Clearing the registered intervals removes intervals and changes
    nothing else. *)
Lemma clearRegisteredIntervals_fields (s : State) :
  let s' := clearRegisteredIntervals s in
  intervals s' ⊆ intervals s
  /\ ignoredAlerts s' = ignoredAlerts s
  /\ alertCounters s' = alertCounters s
  /\ store s' = store s
  /\ nextInterval s' = nextInterval s
  /\ nextObject s' = nextObject s
  /\ flashBanner s' = flashBanner s
  /\ displayed s' = displayed s.
Proof.
  unfold clearRegisteredIntervals.
  apply (map_fold_weak_ind
           (fun (r : State) (_ : gmap string positive) =>
              intervals r ⊆ intervals s
              /\ ignoredAlerts r = ignoredAlerts s
              /\ alertCounters r = alertCounters s
              /\ store r = store s
              /\ nextInterval r = nextInterval s
              /\ nextObject r = nextObject s
              /\ flashBanner r = flashBanner s
              /\ displayed r = displayed s)).
  - done.
  - intros key counter m r _ (Hsub & Hrest).
    destruct (store r !! counter) as [c|]; [|done].
    destruct (intervalId c) as [id|]; [|done].
    simpl. split; [|done].
    etrans; [apply delete_subseteq | done].
Qed.

Lemma wellFormed_clearAllNotifications (s : State) :
  wellFormed s -> wellFormed (clearAllNotifications s).
Proof.
  intros [Hreg Hitv Hhand].
  destruct (clearRegisteredIntervals_fields s)
    as (Hsub & _ & _ & Hstore & Hnid & Hnobj & _ & _).
  unfold clearAllNotifications. split; simpl.
  - intros key counter. by rewrite lookup_empty.
  - intros id t Ht. rewrite Hnid, Hnobj. apply Hitv.
    by eapply lookup_weaken.
  - intros counter c id. rewrite Hstore, Hnid. by apply Hhand.
Qed.

Lemma wellFormed_step (s : State) (i : Input) : wellFormed s -> wellFormed (step s i).
Proof.
  intros Hwf. destruct i as [alert result | id result |]; simpl.
  - by apply wellFormed_showThresholdAlert.
  - by apply wellFormed_fire.
  - by apply wellFormed_clearAllNotifications.
Qed.

(** Every state the escalator can reach is well formed. *)
Lemma wellFormed_run (inputs : list Input) (s : State) :
  wellFormed s -> wellFormed (run inputs s).
Proof.
  revert s. induction inputs as [|i inputs IH]; intros s Hwf; simpl; [done|].
  by apply IH, wellFormed_step.
Qed.

End WellFormed.

(** *** One escalation, from the delivery to the third dialog *)

Section Escalation.

Variable alert : ThresholdAlert.

(** The delivery of an identity the escalator does not know shows the
    first dialog and arms the interval. *)
Lemma deliver_unseen (s : State) :
  wellFormed s ->
  unseen (alertKey alert) s ->
  escalating alert (nextInterval s) (nextObject s) 1 (showThresholdAlert alert true s)
  /\ displayed (showThresholdAlert alert true s)
     = (displayed s ++ [mkDisplay alert 1])%list.
Proof.
  intros [Hreg Hitv Hhand] [Hign Hnone Hkeys].
  unfold showThresholdAlert, counterFor.
  rewrite decide_False by done. rewrite Hnone.
  unfold setCount. simpl. rewrite lookup_insert_eq.
  unfold showSingleAlert. simpl.
  rewrite decide_False by done.
  unfold armInterval. simpl. rewrite lookup_insert_eq. simpl.
  split; [|done]. split; simpl; try done; try lia.
  - intros key. rewrite lookup_insert.
    destruct (decide (alertKey alert = key)) as [<-|_]; [done|].
    intros Hk. pose proof (Hreg _ _ Hk). lia.
  - by rewrite lookup_insert_eq.
  - by rewrite lookup_insert_eq.
  - intros id' t. rewrite lookup_insert.
    destruct (decide (nextInterval s = id')) as [<-|_]; [done|].
    intros Ht _. destruct (Hitv _ _ Ht). split; [by eapply Hkeys | lia].
  - intros counter' c. rewrite !lookup_insert.
    destruct (decide (nextObject s = counter')) as [<-|_]; [done|].
    intros Hc _ Hid. pose proof (Hhand _ _ _ Hc Hid). lia.
Qed.

Variables id counter : positive.

(** The interval of the escalation fires and the user answers OK. *)
Lemma fire_own (n : Z) (s : State) :
  escalating alert id counter n s ->
  n < 3 ->
  escalating alert id counter (n + 1) (fire id true s)
  /\ displayed (fire id true s) = (displayed s ++ [mkDisplay alert (n + 1)])%list.
Proof.
  intros [Hrange Hign Hreg Hcnt Hitv Hoth Hhand Hnid Hnobj] Hlt.
  assert (n = 1 \/ n = 2) as [-> | ->] by lia; simpl in Hcnt, Hitv.
  - unfold fire. rewrite Hitv. simpl. rewrite decide_False by done.
    rewrite Hcnt. unfold setCount. rewrite Hcnt. simpl.
    rewrite lookup_insert_eq. simpl.
    split; [|done]. split; simpl; try done; try lia.
    + by rewrite lookup_insert_eq.
    + intros counter' c. rewrite lookup_insert.
      destruct (decide (counter = counter')) as [<-|_]; [done | by eauto].
  - unfold fire. rewrite Hitv. simpl. rewrite decide_False by done.
    rewrite Hcnt. unfold setCount. rewrite Hcnt. simpl.
    rewrite lookup_insert_eq. simpl.
    unfold cancelTimerOf. simpl. rewrite lookup_insert_eq. simpl.
    split; [|done]. split; simpl; try done; try lia.
    + by rewrite lookup_insert_eq.
    + by rewrite lookup_delete_eq.
    + intros id' t. rewrite lookup_delete.
      destruct (decide (id = id')); [done | by eauto].
    + intros counter' c. rewrite !lookup_insert.
      destruct (decide (counter = counter')) as [<-|_]; [done | by eauto].
Qed.

(** After the third dialog the interval is gone: it does not fire. *)
Lemma fire_completed (result : bool) (s : State) :
  escalating alert id counter 3 s -> fire id result s = s.
Proof.
  intros [_ _ _ _ Hitv _ _ _ _]. simpl in Hitv. unfold fire. by rewrite Hitv.
Qed.

Lemma fire_other (n : Z) (id' : positive) (result : bool) (s : State) :
  escalating alert id counter n s ->
  id' <> id ->
  escalating alert id counter n (fire id' result s)
  /\ displaysOf (alertKey alert) (displayed (fire id' result s))
     = displaysOf (alertKey alert) (displayed s).
Proof.
  intros Hesc Hid. unfold fire.
  destruct (intervals s !! id') as [t|] eqn:Et; [|done].
  destruct (esc_other_intervals _ _ _ _ _ Hesc _ _ Et Hid) as [Hkey Hcounter].
  destruct (decide _).
  { split; [by apply escalating_cancelTimerOf|].
    by rewrite (proj1 (cancelTimerOf_fields _ _)). }
  destruct (store s !! timerCounter t) as [c|]; [|done].
  set (s1 := showSingleAlert _ _ _ _ _).
  assert (escalating alert id counter n s1) as Hesc1.
  { apply escalating_showSingleAlert; [|done..]. by apply escalating_setCount. }
  assert (displaysOf (alertKey alert) (displayed s1)
          = displaysOf (alertKey alert) (displayed s)) as Hshown.
  { unfold s1. rewrite showSingleAlert_displayed, (proj1 (setCount_fields _ _ _)).
    rewrite displaysOf_app, displaysOf_other by done. by rewrite app_nil_r. }
  destruct (store s1 !! timerCounter t) as [c'|]; [|done].
  destruct (3 <=? count c'); [|done].
  split; [by apply escalating_cancelTimerOf|].
  by rewrite (proj1 (cancelTimerOf_fields _ _)).
Qed.

Lemma deliver_other (n : Z) (alert' : ThresholdAlert) (result : bool) (s : State) :
  escalating alert id counter n s ->
  alertKey alert' <> alertKey alert ->
  escalating alert id counter n (showThresholdAlert alert' result s)
  /\ displaysOf (alertKey alert) (displayed (showThresholdAlert alert' result s))
     = displaysOf (alertKey alert) (displayed s).
Proof.
  intros Hesc Hkey. unfold showThresholdAlert.
  destruct (decide _); [done|].
  pose proof (counterFor_fields (alertKey alert') s) as [Hshown0 _].
  destruct (counterFor (alertKey alert') s) as [s0 counter'] eqn:E.
  destruct (escalating_counterFor _ _ _ _ _ _ _ _ Hesc Hkey E) as [Hesc0 Hcounter].
  simpl in Hshown0.
  set (s1 := showSingleAlert _ _ _ _ _).
  assert (escalating alert id counter n s1) as Hesc1.
  { apply escalating_showSingleAlert; [|done..]. by apply escalating_setCount. }
  assert (displaysOf (alertKey alert) (displayed s1)
          = displaysOf (alertKey alert) (displayed s)) as Hshown.
  { unfold s1. rewrite showSingleAlert_displayed, (proj1 (setCount_fields _ _ _)).
    rewrite displaysOf_app, displaysOf_other by done.
    by rewrite app_nil_r, Hshown0. }
  destruct (decide _); [done|].
  split; [by apply escalating_armInterval | done].
Qed.

Lemma firesOf_cons (i : Input) (inputs : list Input) :
  firesOf id (i :: inputs)
  = (if isFireOf id i then S (firesOf id inputs) else firesOf id inputs).
Proof. unfold firesOf. simpl. by destruct (isFireOf id i). Qed.

(** The escalation through any undisturbed run: the dialogs of the
    identity are the first ones of the three, one more for each time the
    interval fired. *)
Lemma run_undisturbed (base : list Display) (inputs : list Input) :
  forall (n : Z) (s : State),
    escalating alert id counter n s ->
    displaysOf (alertKey alert) (displayed s)
    = (base ++ take (Z.to_nat n) (threeDisplays alert))%list ->
    Forall (undisturbed (alertKey alert) id) inputs ->
    let m := Z.min 3 (n + Z.of_nat (firesOf id inputs)) in
    escalating alert id counter m (run inputs s)
    /\ displaysOf (alertKey alert) (displayed (run inputs s))
       = (base ++ take (Z.to_nat m) (threeDisplays alert))%list.
Proof.
  induction inputs as [|i inputs IH]; intros n s Hesc Hshown Hquiet.
  - pose proof (esc_range _ _ _ _ _ Hesc).
    unfold firesOf. simpl. by rewrite Z.add_0_r, Z.min_r by lia.
  - apply Forall_cons in Hquiet as [Hi Hquiet].
    pose proof (esc_range _ _ _ _ _ Hesc) as Hrange.
    rewrite firesOf_cons. simpl run.
    destruct i as [alert' result | id' result |]; simpl in Hi; [| |done].
    + simpl isFireOf. cbv iota. simpl step.
      destruct (deliver_other n alert' result s Hesc Hi) as [Hesc' Hshown'].
      apply IH; [done | by rewrite Hshown' | done].
    + simpl isFireOf. simpl step. destruct (Pos.eqb_spec id' id) as [-> | Hne].
      * rewrite (Hi eq_refl).
        destruct (Z_lt_le_dec n 3) as [Hlt | Hge].
        -- destruct (fire_own n s Hesc Hlt) as [Hesc' Hshown'].
           assert (Z.min 3 (n + Z.of_nat (S (firesOf id inputs)))
                   = Z.min 3 ((n + 1) + Z.of_nat (firesOf id inputs))) as -> by lia.
           apply IH; [done | | done].
           rewrite Hshown', displaysOf_app, displaysOf_own, Hshown.
           rewrite <- app_assoc. f_equal.
           assert (n = 1 \/ n = 2) as [-> | ->] by lia; reflexivity.
        -- assert (n = 3) as -> by lia.
           rewrite (fire_completed true s Hesc).
           assert (Z.min 3 (3 + Z.of_nat (S (firesOf id inputs)))
                   = Z.min 3 (3 + Z.of_nat (firesOf id inputs))) as -> by lia.
           by apply IH.
      * destruct (fire_other n id' result s Hesc Hne) as [Hesc' Hshown'].
        apply IH; [done | by rewrite Hshown' | done].
Qed.

End Escalation.

(** *** Suppression *)

Section Suppression.

Lemma cancelTimerOf_spec (counter : positive) (s : State) :
  (forall c, store (cancelTimerOf counter s) !! counter = Some c -> intervalId c = None)
  /\ (forall c id,
        store s !! counter = Some c -> intervalId c = Some id ->
        intervals (cancelTimerOf counter s) !! id = None)
  /\ intervals (cancelTimerOf counter s) ⊆ intervals s.
Proof.
  unfold cancelTimerOf.
  destruct (store s !! counter) as [c|] eqn:E; [|by rewrite E].
  destruct (intervalId c) as [id|] eqn:Eid; simpl.
  - split; [|split].
    + intros c'. rewrite lookup_insert_eq. by intros [= <-].
    + intros c' id' [= <-] Hid. rewrite Eid in Hid. injection Hid as <-.
      by rewrite lookup_delete_eq.
    + apply delete_subseteq.
  - split; [|split]; [| |done].
    + intros c'. rewrite E. by intros [= <-].
    + intros c' id' [= <-]. by rewrite Eid.
Qed.

Lemma deliver_displays (alert : ThresholdAlert) (result : bool) (s : State) :
  alertKey alert ∉ ignoredAlerts s ->
  displayed (showThresholdAlert alert result s)
  = (displayed s ++ [mkDisplay alert 1])%list.
Proof.
  intros Hign. unfold showThresholdAlert. rewrite decide_False by done.
  pose proof (counterFor_fields (alertKey alert) s) as [Hshown _].
  destruct (counterFor (alertKey alert) s) as [s0 counter]. simpl in Hshown.
  destruct (decide _); simpl;
    by rewrite showSingleAlert_displayed, (proj1 (setCount_fields _ _ _)), Hshown.
Qed.

(** The answer Cancel to the first dialog. *)
Lemma deliver_cancel (alert : ThresholdAlert) (s : State) :
  alertKey alert ∉ ignoredAlerts s ->
  alertKey alert ∈ ignoredAlerts (showThresholdAlert alert false s)
  /\ intervals (showThresholdAlert alert false s) ⊆ intervals s
  /\ (forall counter c id,
        alertCounters s !! alertKey alert = Some counter ->
        store s !! counter = Some c ->
        intervalId c = Some id ->
        intervals (showThresholdAlert alert false s) !! id = None).
Proof.
  intros Hign. unfold showThresholdAlert. rewrite decide_False by done.
  unfold counterFor.
  destruct (alertCounters s !! alertKey alert) as [counter|] eqn:E.
  - set (s2 := showSingleAlert alert counter 1 false (setCount counter 1 s)).
    assert (alertKey alert ∈ ignoredAlerts s2) as Hin.
    { unfold s2. rewrite showSingleAlert_ignored. set_solver. }
    rewrite decide_True by done.
    split; [done|]. unfold s2, showSingleAlert. simpl.
    set (s1 := setIgnored _ _).
    destruct (cancelTimerOf_spec counter s1) as (_ & Hgone & Hsub).
    assert (intervals s1 = intervals s) as Hitv.
    { unfold s1, setCount. by destruct (store s !! counter). }
    split; [by rewrite <- Hitv|].
    intros counter' c id [= <-] Hc Hid.
    apply (Hgone (mkCounter 1 (intervalId c))); [|done].
    unfold s1, setCount. rewrite Hc. simpl. by rewrite lookup_insert_eq.
  - set (s2 := showSingleAlert alert _ 1 false _).
    assert (alertKey alert ∈ ignoredAlerts s2) as Hin.
    { unfold s2. rewrite showSingleAlert_ignored. set_solver. }
    rewrite decide_True by done.
    split; [done|]. split; [|done].
    unfold s2, showSingleAlert. simpl.
    set (s1 := setIgnored _ _).
    destruct (cancelTimerOf_spec (nextObject s) s1) as (_ & _ & Hsub).
    etrans; [exact Hsub|].
    unfold s1, setCount. simpl. by rewrite lookup_insert_eq.
Qed.

(** The answer Cancel to a repeated dialog. *)
Lemma fire_cancel (id : positive) (t : Timer) (c : Counter) (s : State) :
  intervals s !! id = Some t ->
  alertKey (timerAlert t) ∉ ignoredAlerts s ->
  store s !! timerCounter t = Some c ->
  alertKey (timerAlert t) ∈ ignoredAlerts (fire id false s)
  /\ displayed (fire id false s)
     = (displayed s ++ [mkDisplay (timerAlert t) (count c + 1)])%list
  /\ (forall c', store (fire id false s) !! timerCounter t = Some c' -> intervalId c' = None)
  /\ (forall id', intervalId c = Some id' -> intervals (fire id false s) !! id' = None)
  /\ intervals (fire id false s) ⊆ intervals s.
Proof.
  intros Ht Hign Hc. unfold fire. rewrite Ht, decide_False, Hc by done.
  set (s1 := setCount (timerCounter t) (count c + 1) s).
  assert (store s1 !! timerCounter t = Some (mkCounter (count c + 1) (intervalId c))
          /\ intervals s1 = intervals s /\ displayed s1 = displayed s) as (Hc1 & Hitv1 & Hsh1).
  { unfold s1, setCount. rewrite Hc. simpl. by rewrite lookup_insert_eq. }
  unfold showSingleAlert. simpl.
  set (s2 := setIgnored _ _).
  assert (store s2 = store s1 /\ intervals s2 = intervals s1
          /\ alertKey (timerAlert t) ∈ ignoredAlerts s2
          /\ displayed s2 = (displayed s ++ [mkDisplay (timerAlert t) (count c + 1)])%list)
    as (Hst2 & Hitv2 & Hign2 & Hsh2).
  { unfold s2. simpl. rewrite Hsh1. repeat split. set_solver. }
  destruct (cancelTimerOf_spec (timerCounter t) s2) as (Hnone & Hgone & Hsub).
  destruct (cancelTimerOf_fields (timerCounter t) s2) as [Hsh3 Hign3].
  set (s3 := cancelTimerOf (timerCounter t) s2) in *.
  assert (forall id', intervalId c = Some id' -> intervals s3 !! id' = None) as Hgone'.
  { intros id' Hid. apply (Hgone (mkCounter (count c + 1) (intervalId c))); [|done].
    by rewrite Hst2. }
  assert (intervals s3 ⊆ intervals s) as Hsub'.
  { by rewrite <- Hitv1, <- Hitv2. }
  destruct (store s3 !! timerCounter t) as [c'|] eqn:Ec'.
  - destruct (3 <=? count c').
    + destruct (cancelTimerOf_spec (timerCounter t) s3) as (Hnone4 & _ & Hsub4).
      destruct (cancelTimerOf_fields (timerCounter t) s3) as [Hsh4 Hign4].
      rewrite Hsh4, Hign4, Hsh3, Hign3.
      repeat split; try done.
      * intros id' Hid. eapply lookup_weaken_None; [by apply Hgone' | done].
      * by etrans.
    + rewrite Hsh3, Hign3. repeat split; try done.
      intros c0 Hc0. rewrite Ec' in Hc0. by apply Hnone.
  - rewrite Hsh3, Hign3. repeat split; try done.
    intros c0 Hc0. rewrite Ec' in Hc0. by apply Hnone.
Qed.

(** Whatever happens short of a global clear, an ignored identity stays
    ignored and is not shown. *)
Lemma step_ignored (key : string) (s : State) (i : Input) :
  key ∈ ignoredAlerts s ->
  i <> ClearAll ->
  key ∈ ignoredAlerts (step s i)
  /\ displaysOf key (displayed (step s i)) = displaysOf key (displayed s).
Proof.
  intros Hin Hi. destruct i as [alert result | id result |]; [| |done]; simpl.
  - unfold showThresholdAlert. destruct (decide _) as [|Hnot]; [done|].
    assert (alertKey alert <> key) as Hkey by (intros Heq; apply Hnot; by rewrite Heq).
    pose proof (counterFor_fields (alertKey alert) s) as [Hsh0 Hign0].
    destruct (counterFor (alertKey alert) s) as [s0 counter]. simpl in Hsh0, Hign0.
    set (s2 := showSingleAlert _ _ _ _ _).
    assert (key ∈ ignoredAlerts s2
            /\ displaysOf key (displayed s2) = displaysOf key (displayed s)) as Hs2.
    { unfold s2.
      rewrite showSingleAlert_ignored, showSingleAlert_displayed.
      rewrite (proj1 (setCount_fields _ _ _)), (proj2 (setCount_fields _ _ _)).
      rewrite Hsh0, Hign0, displaysOf_app, displaysOf_other, app_nil_r by done.
      split; [|done]. destruct result; [done | by apply elem_of_union_r]. }
    by destruct (decide _).
  - unfold fire. destruct (intervals s !! id) as [t|]; [|done].
    destruct (decide _) as [|Hnot].
    { by rewrite (proj1 (cancelTimerOf_fields _ _)), (proj2 (cancelTimerOf_fields _ _)). }
    assert (alertKey (timerAlert t) <> key) as Hkey
      by (intros Heq; apply Hnot; by rewrite Heq).
    destruct (store s !! timerCounter t) as [c|]; [|done].
    set (s2 := showSingleAlert _ _ _ _ _).
    assert (key ∈ ignoredAlerts s2
            /\ displaysOf key (displayed s2) = displaysOf key (displayed s)) as Hs2.
    { unfold s2.
      rewrite showSingleAlert_ignored, showSingleAlert_displayed.
      rewrite (proj1 (setCount_fields _ _ _)), (proj2 (setCount_fields _ _ _)).
      rewrite displaysOf_app, displaysOf_other, app_nil_r by done.
      split; [|done]. destruct result; [done | by apply elem_of_union_r]. }
    destruct (store s2 !! timerCounter t) as [c'|]; [|done].
    destruct (3 <=? count c'); [|done].
    by rewrite (proj1 (cancelTimerOf_fields _ _)), (proj2 (cancelTimerOf_fields _ _)).
Qed.

Lemma run_ignored (key : string) (inputs : list Input) (s : State) :
  key ∈ ignoredAlerts s ->
  Forall (fun i => i <> ClearAll) inputs ->
  key ∈ ignoredAlerts (run inputs s)
  /\ displaysOf key (displayed (run inputs s)) = displaysOf key (displayed s).
Proof.
  revert s. induction inputs as [|i inputs IH]; intros s Hin Hno; [done|].
  apply Forall_cons in Hno as [Hi Hno].
  destruct (step_ignored key s i Hin Hi) as [Hin' Hshown'].
  destruct (IH (step s i) Hin' Hno) as [Hin'' Hshown''].
  simpl. split; [done|]. by rewrite Hshown''.
Qed.

(** Cancel in an escalation leaves no interval of the identity. *)
Lemma fire_own_cancel (alert : ThresholdAlert) (id counter : positive) (n : Z) (s : State) :
  escalating alert id counter n s ->
  n < 3 ->
  forall id' t,
    intervals (fire id false s) !! id' = Some t ->
    alertKey (timerAlert t) <> alertKey alert.
Proof.
  intros Hesc Hlt id' t Ht.
  pose proof Hesc as [Hrange Hign Hreg Hcnt Hitv Hoth Hhand Hnid Hnobj].
  assert ((n <? 3) = true) as Hb by (by apply Z.ltb_lt).
  rewrite Hb in Hcnt, Hitv.
  destruct (fire_cancel id _ _ s Hitv Hign Hcnt) as (_ & _ & _ & Hgone & Hsub).
  simpl in Hgone, Hsub.
  destruct (decide (id' = id)) as [-> | Hne].
  - rewrite (Hgone id eq_refl) in Ht. done.
  - eapply Hoth; [|done]. by eapply lookup_weaken.
Qed.

End Suppression.

Lemma unseen_init (key : string) : unseen key init.
Proof. split; simpl; [set_solver | done | intros *; by rewrite lookup_empty]. Qed.

(** C8.  In any state the escalator can be in, an identity it does not
    know is delivered and the user never answers Cancel to its dialogs,
    while other identities are delivered and any interval fires.  The
    first dialog is shown at the delivery and the interval is armed; each
    of the first two times the interval fires shows one more dialog; with
    the third dialog the interval is cleared, and however the run goes on
    the dialogs of the identity are these three. *)
Theorem three_displays_and_no_more (s : State) (alert : ThresholdAlert)
    (rest : list Input) :
  wellFormed s ->
  unseen (alertKey alert) s ->
  Forall (undisturbed (alertKey alert) (nextInterval s)) rest ->
  let id := nextInterval s in
  let fires := firesOf id rest in
  let s1 := step s (Deliver alert true) in
  let s' := run (Deliver alert true :: rest) s in
  displayed s1 = (displayed s ++ [mkDisplay alert 1])%list
  /\ intervals s1 !! id = Some (mkTimer alert (nextObject s))
  /\ displaysOf (alertKey alert) (displayed s')
     = (displaysOf (alertKey alert) (displayed s)
        ++ take (S (min fires 2)) (threeDisplays alert))%list
  /\ ((fires < 2)%nat -> intervals s' !! id = Some (mkTimer alert (nextObject s)))
  /\ ((2 <= fires)%nat ->
      forall id' t,
        intervals s' !! id' = Some t -> alertKey (timerAlert t) <> alertKey alert).
Proof.
  intros Hwf Hunseen Hquiet id fires s1 s'.
  destruct (deliver_unseen alert s Hwf Hunseen) as [Hesc Hshown].
  fold id in Hesc. simpl in s1. fold s1 in Hesc, Hshown.
  assert (displaysOf (alertKey alert) (displayed s1)
          = (displaysOf (alertKey alert) (displayed s)
             ++ take (Z.to_nat 1) (threeDisplays alert))%list) as Hbase.
  { by rewrite Hshown, displaysOf_app, displaysOf_own. }
  destruct (run_undisturbed alert id (nextObject s)
              (displaysOf (alertKey alert) (displayed s)) rest 1 s1 Hesc Hbase Hquiet)
    as [Hesc' Hshown'].
  fold fires in Hesc', Hshown'.
  change (run rest s1) with s' in Hesc', Hshown'.
  split; [done|].
  split; [by rewrite (esc_interval _ _ _ _ _ Hesc)|].
  split; [|split].
  - rewrite Hshown'. do 2 f_equal. lia.
  - intros Hfew. rewrite (esc_interval _ _ _ _ _ Hesc').
    assert ((Z.min 3 (1 + Z.of_nat fires) <? 3) = true) as -> by (apply Z.ltb_lt; lia).
    done.
  - intros Hmany id' t Ht.
    pose proof (esc_interval _ _ _ _ _ Hesc') as Hgone.
    assert ((Z.min 3 (1 + Z.of_nat fires) <? 3) = false) as Hb by (apply Z.ltb_ge; lia).
    rewrite Hb in Hgone.
    destruct (decide (id' = id)) as [-> | Hne]; [by rewrite Hgone in Ht|].
    by eapply (esc_other_intervals _ _ _ _ _ Hesc').
Qed.

Lemma three_displays_and_no_more_witness :
  let alert := mkThresholdAlert error "File over threshold" in
  let rest := [Fire 1 true; Fire 1 true; Fire 1 true; Fire 1 true] in
  wellFormed init
  /\ unseen (alertKey alert) init
  /\ Forall (undisturbed (alertKey alert) (nextInterval init)) rest
  /\ displaysOf (alertKey alert) (displayed (run (Deliver alert true :: rest) init))
     = threeDisplays alert.
Proof.
  intros alert rest.
  assert (Forall (undisturbed (alertKey alert) (nextInterval init)) rest) as Hquiet.
  { repeat constructor. }
  split; [exact wellFormed_init|].
  split; [exact (unseen_init _)|].
  split; [exact Hquiet|].
  destruct (three_displays_and_no_more init alert rest wellFormed_init
              (unseen_init _) Hquiet) as (_ & _ & Hshown & _).
  exact Hshown.
Defined.

(** X19.  The answer Cancel, to the first dialog or to a repeated one, puts
    the identity in the ignored set and clears the one interval whose handle
    the counter of the identity holds at that moment; in an escalation,
    where that is the only interval of the identity, none is left.  From
    then on, whatever is delivered and whichever interval fires, the
    identity stays ignored and none of its dialogs is shown, until
    [clearAllNotifications] empties the ignored set: the next delivery of
    the identity is shown again. *)
Theorem cancel_ignores_and_clears_the_registered_interval (s : State) (alert : ThresholdAlert) :
  (alertKey alert ∉ ignoredAlerts s ->
     alertKey alert ∈ ignoredAlerts (step s (Deliver alert false))
     /\ intervals (step s (Deliver alert false)) ⊆ intervals s
     /\ (forall counter c id,
           alertCounters s !! alertKey alert = Some counter ->
           store s !! counter = Some c ->
           intervalId c = Some id ->
           intervals (step s (Deliver alert false)) !! id = None))
  /\ (forall id t c,
        intervals s !! id = Some t ->
        timerAlert t = alert ->
        alertKey alert ∉ ignoredAlerts s ->
        store s !! timerCounter t = Some c ->
        alertKey alert ∈ ignoredAlerts (step s (Fire id false))
        /\ (forall c',
              store (step s (Fire id false)) !! timerCounter t = Some c' ->
              intervalId c' = None)
        /\ (forall id',
              intervalId c = Some id' ->
              intervals (step s (Fire id false)) !! id' = None))
  /\ (forall id counter n,
        escalating alert id counter n s ->
        n < 3 ->
        forall id' t,
          intervals (step s (Fire id false)) !! id' = Some t ->
          alertKey (timerAlert t) <> alertKey alert)
  /\ (alertKey alert ∈ ignoredAlerts s ->
      forall inputs,
        Forall (fun i => i <> ClearAll) inputs ->
        alertKey alert ∈ ignoredAlerts (run inputs s)
        /\ displaysOf (alertKey alert) (displayed (run inputs s))
           = displaysOf (alertKey alert) (displayed s))
  /\ ignoredAlerts (step s ClearAll) = ∅
  /\ (forall result,
        displayed (run [ClearAll; Deliver alert result] s)
        = (displayed s ++ [mkDisplay alert 1])%list).
Proof.
  split; [|split; [|split; [|split; [|split]]]].
  - intros Hign. by apply deliver_cancel.
  - intros id t c Ht <- Hign Hc.
    destruct (fire_cancel id t c s Ht Hign Hc) as (Hin & _ & Hnone & Hgone & _).
    done.
  - intros id counter n Hesc Hlt. by eapply fire_own_cancel.
  - intros Hin inputs Hno. by apply run_ignored.
  - done.
  - intros result. simpl.
    rewrite deliver_displays by (simpl; set_solver).
    simpl. by rewrite (proj2 (proj2 (proj2 (proj2 (proj2 (proj2 (proj2
                         (clearRegisteredIntervals_fields s)))))))).
Qed.

Lemma cancel_ignores_and_clears_the_registered_interval_witness :
  let alert := mkThresholdAlert warning "Combined .caido files at 75%" in
  let s := run [Deliver alert true; Fire 1 false] init in
  let later := [Fire 1 true; Deliver alert true; Fire 1 true; Deliver alert false] in
  alertKey alert ∈ ignoredAlerts s
  /\ Forall (fun i => i <> ClearAll) later
  /\ displaysOf (alertKey alert) (displayed (run later s))
     = [mkDisplay alert 1; mkDisplay alert 2].
Proof.
  intros alert s later.
  assert (alertKey alert ∈ ignoredAlerts s) as Hin.
  { vm_compute. set_solver. }
  assert (Forall (fun i => i <> ClearAll) later) as Hno.
  { repeat constructor; discriminate. }
  split; [exact Hin|]. split; [exact Hno|].
  destruct (cancel_ignores_and_clears_the_registered_interval s alert) as (_ & _ & _ & Hquiet & _).
  destruct (Hquiet Hin later Hno) as [_ Hshown].
  rewrite Hshown. reflexivity.
Defined.

(** C9.  The repeat timer of an ignored identity is not always cancelled.
    The same alert is delivered twice and acknowledged: the second delivery
    arms interval 2 and overwrites the handle 1 in the counter, while
    interval 1 stays armed.  Interval 1 fires and the user answers Cancel
    to the dialog numbered 2: the identity is now ignored, interval 2, the
    handle in the counter, is cleared, and interval 1 is still armed.  As
    long as the identity is ignored interval 1 fires without a dialog and
    without being cleared; [clearAllNotifications] does not clear it
    either, the counter holding no handle, and after it interval 1 shows
    the dialogs numbered 3, 4 and 5 without any new delivery. *)
Theorem cancel_leaves_an_earlier_interval_armed :
  let alert := mkThresholdAlert warning "Combined .caido files at 75%" in
  let s := run [Deliver alert true; Deliver alert true] init in
  let cancelled := step s (Fire 1 false) in
  let cleared := step (run [Fire 1 true; Fire 1 true] cancelled) ClearAll in
  (* after the two deliveries *)
  ((alertKey alert ∉ ignoredAlerts s)
   /\ alertCounters s !! alertKey alert = Some 1%positive
   /\ store s !! 1%positive = Some (mkCounter 1 (Some 2%positive))
   /\ intervals s !! 1%positive = Some (mkTimer alert 1)
   /\ intervals s !! 2%positive = Some (mkTimer alert 1)
   /\ displayed s = [mkDisplay alert 1; mkDisplay alert 1])
  (* after Cancel *)
  /\ (displayed cancelled = (displayed s ++ [mkDisplay alert 2])%list
      /\ alertKey alert ∈ ignoredAlerts cancelled
      /\ store cancelled !! 1%positive = Some (mkCounter 2 None)
      /\ intervals cancelled !! 2%positive = None
      /\ intervals cancelled !! 1%positive = Some (mkTimer alert 1))
  (* while the identity is ignored *)
  /\ (displayed (run [Fire 1 true; Fire 1 true] cancelled) = displayed cancelled
      /\ intervals (run [Fire 1 true; Fire 1 true] cancelled) !! 1%positive
         = Some (mkTimer alert 1))
  (* after the global clear *)
  /\ (ignoredAlerts cleared = ∅
      /\ alertCounters cleared = ∅
      /\ intervals cleared !! 1%positive = Some (mkTimer alert 1)
      /\ displayed (run [Fire 1 true; Fire 1 true; Fire 1 true] cleared)
         = (displayed cancelled
            ++ [mkDisplay alert 3; mkDisplay alert 4; mkDisplay alert 5])%list
      /\ intervals (run [Fire 1 true; Fire 1 true; Fire 1 true] cleared) !! 1%positive
         = Some (mkTimer alert 1)).
Proof.
  intros alert s cancelled cleared.
  split; [|split; [|split]].
  - split; [vm_compute; set_solver|]. repeat split; vm_compute; reflexivity.
  - split; [vm_compute; reflexivity|].
    split; [vm_compute; set_solver|]. repeat split; vm_compute; reflexivity.
  - split; vm_compute; reflexivity.
  - repeat split; vm_compute; reflexivity.
Qed.

End EscalatorFacts.


(** * Further properties *)

(** ** The walk *)

Section Walk.

Lemma appendScan_empty_r (st : ScanState) : appendScan st emptyScan = st.
Proof.
  destruct st as [fs total]. unfold appendScan, emptyScan. simpl.
  now rewrite app_nil_r, Z.add_0_r.
Qed.

Lemma appendScan_assoc (a b c : ScanState) :
  appendScan (appendScan a b) c = appendScan a (appendScan b c).
Proof.
  unfold appendScan. simpl. now rewrite <- app_assoc, Z.add_assoc.
Qed.

Lemma scan_loop_appends (f : ScanState -> Dirent -> ScanState) (entries : list Dirent) :
  List.Forall (fun e => forall st, f st e = appendScan st (f emptyScan e)) entries ->
  forall st, fold_left f entries st = appendScan st (fold_left f entries emptyScan).
Proof.
  induction 1 as [|e entries He _ IH]; intros st; simpl.
  - now rewrite appendScan_empty_r.
  - rewrite IH, (IH (f emptyScan e)), He. apply appendScan_assoc.
Qed.

Lemma scanEntry_appends (e : Dirent) :
  forall relativePath st,
    scanEntry relativePath e st = appendScan st (scanEntry relativePath e emptyScan).
Proof.
  induction e as [n [sz|] | n | n es IH | n] using Dirent_tree_ind;
    intros relativePath st; try (simpl; now rewrite appendScan_empty_r).
  - reflexivity.
  - rewrite !scanEntry_directory. simpl.
    apply (scan_loop_appends
             (fun st e => scanEntry (displayNameOf relativePath n) e st)).
    eapply List.Forall_impl; [|exact IH]. intros e He st'. apply He.
Qed.

End Walk.

(** X1.  A walk only appends: scanning a directory from any state gives
    that state followed by what the same scan collects from the empty
    state.  The files already collected are kept in place and the running
    total grows by the sizes of the new files. *)
Theorem scanDirectory_only_appends (listing : option (list Dirent))
    (relativePath : string) (st : ScanState) :
  scanDirectory listing relativePath st
  = appendScan st (scanDirectory listing relativePath emptyScan)
  /\ scannedTotal (scanDirectory listing relativePath st)
     = scannedTotal st
       + sumOf (map size (scannedFiles (scanDirectory listing relativePath emptyScan))).
Proof.
  assert (scanDirectory listing relativePath st
          = appendScan st (scanDirectory listing relativePath emptyScan)) as Happ.
  { destruct listing as [entries|]; simpl; [|now rewrite appendScan_empty_r].
    apply (scan_loop_appends (fun st e => scanEntry relativePath e st)).
    apply Forall_forall. intros e _ st'. apply scanEntry_appends. }
  split; [exact Happ|].
  rewrite Happ. simpl. f_equal.
  apply (scanDirectory_totalIsSum listing relativePath emptyScan). reflexivity.
Qed.

(** ** The order of the inventory *)

Section Order.

Lemma insertBySize_same_size (z : Z) (f : FileInfo) (l : list FileInfo) :
  List.filter (fun g => size g =? z) (insertBySize f l)
  = List.filter (fun g => size g =? z) (f :: l).
Proof.
  induction l as [|g l IH]; [reflexivity|].
  simpl insertBySize. destruct (Z.ltb_spec (size f) (size g)) as [Hlt|Hge]; [|reflexivity].
  simpl in *. rewrite IH.
  destruct (Z.eqb_spec (size f) z) as [Hf|Hf]; [|reflexivity].
  destruct (Z.eqb_spec (size g) z) as [Hg|Hg]; [lia | reflexivity].
Qed.

Lemma sortBySizeDesc_same_size (z : Z) (l : list FileInfo) :
  List.filter (fun g => size g =? z) (sortBySizeDesc l)
  = List.filter (fun g => size g =? z) l.
Proof.
  induction l as [|f l IH]; [reflexivity|].
  simpl sortBySizeDesc. rewrite insertBySize_same_size. simpl. now rewrite IH.
Qed.

Lemma bySizeDesc_strongly (l : list FileInfo) :
  Sorted (fun a b => size b <= size a) l -> StronglySorted bySizeDesc l.
Proof.
  intros Hs. apply Sorted_StronglySorted; [|exact Hs].
  intros a b c Hab Hbc. unfold bySizeDesc in *. lia.
Qed.

Lemma filter_strongly_sorted (p : FileInfo -> bool) (l : list FileInfo) :
  StronglySorted bySizeDesc l -> StronglySorted bySizeDesc (List.filter p l).
Proof.
  induction 1 as [|f l Hl IH Hall]; simpl; [constructor|].
  destruct (p f); [|exact IH].
  constructor; [exact IH|].
  apply List.Forall_forall. intros g Hg. apply List.filter_In in Hg as [Hg _].
  eapply List.Forall_forall in Hall; eauto.
Qed.

End Order.

(** X2.  The files of an inventory are the files the walk collected, in
    descending order of size: every file is at least as large as every
    file after it, and the grouped files are in that order too. *)
Theorem inventory_is_sorted_by_size (path : string) (st : ScanState) :
  Permutation (files (inventoryOf path st)) (scannedFiles st)
  /\ StronglySorted bySizeDesc (files (inventoryOf path st))
  /\ StronglySorted bySizeDesc (caidoFiles (inventoryOf path st)).
Proof.
  assert (StronglySorted bySizeDesc (sortBySizeDesc (scannedFiles st))) as Hsorted.
  { apply bySizeDesc_strongly, sortBySizeDesc_sorted. }
  split; [apply sortBySizeDesc_perm|].
  split; [exact Hsorted|].
  simpl. now apply filter_strongly_sorted.
Qed.

(** X3.  The sort is stable: the files of any one size are in the
    inventory in the order in which the walk met them. *)
Theorem files_of_equal_size_keep_walk_order (path : string) (st : ScanState) (z : Z) :
  List.filter (fun f => size f =? z) (files (inventoryOf path st))
  = List.filter (fun f => size f =? z) (scannedFiles st).
Proof. simpl. apply sortBySizeDesc_same_size. Qed.

(** ** formatBytes below the last unit *)

Section FormatBytesValues.

Lemma unitIndex_below_k (bytes : Z) : 0 < bytes < 1024 -> unitIndex bytes = 0.
Proof.
  intros [Hpos Hlt]. unfold unitIndex. rewrite log2_k.
  apply Z.div_small. split; [apply Z.log2_nonneg|].
  apply Z.log2_lt_pow2; [exact Hpos|]. exact Hlt.
Qed.

Lemma hundredthsToString_whole (n : Z) :
  hundredthsToString (100 * n) = Js.numberToString n.
Proof.
  unfold hundredthsToString.
  replace (100 * n mod 100) with 0 by (rewrite Z.mul_comm, Z_mod_mult; reflexivity).
  simpl. f_equal. rewrite Z.mul_comm. apply Z_div_mult. lia.
Qed.

End FormatBytesValues.

(** X4.  Below 1024 bytes the count is shown as it is, in bytes. *)
Theorem formatBytes_below_1KiB_is_the_count (bytes : Z) :
  0 <= bytes < 1024 ->
  formatBytes bytes = Js.numberToString bytes +:+ " B".
Proof.
  intros [Hnonneg Hlt]. unfold formatBytes.
  destruct (Z.eqb_spec bytes 0) as [->|Hne]; [reflexivity|].
  destruct (Z.ltb_spec bytes 0) as [Hneg|_]; [lia|].
  unfold numberPart. rewrite unitIndex_below_k by lia.
  unfold toFixed2. change (k ^ 0) with 1.
  replace ((200 * bytes + 1) / (2 * 1)) with (100 * bytes).
  - now rewrite hundredthsToString_whole.
  - apply Z.div_unique with (r := 1); lia.
Qed.

Lemma formatBytes_below_1KiB_is_the_count_witness :
  0 <= 1023 < 1024 /\ formatBytes 1023 = "1023 B".
Proof.
  assert (0 <= 1023 < 1024) as Hrange by lia.
  split; [exact Hrange|].
  exact (formatBytes_below_1KiB_is_the_count 1023 Hrange).
Defined.



(** ** expandPath *)

Section ExpandPath.

Lemma substring_all (s : string) : String.substring 0 (String.length s) s = s.
Proof. induction s as [|c s IH]; simpl; [reflexivity | now rewrite IH]. Qed.

Lemma replaceFirst_leading_tilde (rest replacement : string) :
  PathScan.replaceFirst (String "~" rest) "~" replacement
  = PathScan.getSubstitution "~" "" rest replacement +:+ rest.
Proof.
  unfold PathScan.replaceFirst. simpl String.index.
  assert (String.prefix "" rest = true) as -> by (destruct rest; reflexivity).
  cbv iota.
  replace (String.length (String "~" rest) - 0 - String.length "~")%nat
    with (String.length rest) by (simpl; lia).
  change (substring (0 + String.length "~") (String.length rest) (String "~" rest))
    with (substring 0 (String.length rest) rest).
  rewrite substring_all. reflexivity.
Qed.

Lemma getSubstitution_cons (matched preceding following : string) (c : ascii)
    (rest : string) :
  c <> "$"%char ->
  PathScan.getSubstitution matched preceding following (String c rest)
  = String c (PathScan.getSubstitution matched preceding following rest).
Proof.
  intros Hc.
  destruct c as [[|] [|] [|] [|] [|] [|] [|] [|]]; try reflexivity.
  congruence.
Qed.

(** A replacement without the character [$] is inserted as it is. *)
Lemma getSubstitution_plain (matched preceding following replacement : string) :
  Js.occursIn "$" replacement = false ->
  PathScan.getSubstitution matched preceding following replacement = replacement.
Proof.
  induction replacement as [|c rest IH]; [reflexivity|].
  simpl Js.occursIn. intros H. apply orb_false_iff in H as [Hc Hrest].
  rewrite getSubstitution_cons.
  - now rewrite IH.
  - intros ->. discriminate Hc.
Qed.

Lemma prefix_other_head (a c : ascii) (l r : string) :
  a <> c -> String.prefix (String a l) (String c r) = false.
Proof.
  intros Hne. cbn [String.prefix].
  destruct (ascii_dec a c); [contradiction | reflexivity].
Qed.

(** Without a backslash there is no escaped space to replace. *)
Lemma replaceAll_without_backslash (s : string) :
  Js.occursIn "\" s = false ->
  PathScan.replaceAll s PathScan.escapedSpacePattern " " = s.
Proof.
  unfold PathScan.replaceAll.
  induction s as [|c rest IH]; [reflexivity|].
  simpl Js.occursIn. intros H. apply orb_false_iff in H as [Hc Hrest].
  cbn [PathScan.replaceAllFrom]. unfold PathScan.escapedSpacePattern at 1.
  rewrite prefix_other_head.
  - now rewrite IH.
  - intros <-. discriminate Hc.
Qed.

End ExpandPath.

(** X6.  A path that, once trimmed, does not start with a tilde and has no
    backslash is returned trimmed and otherwise unchanged, whatever the
    home directory is; a tilde after the first character is kept. *)
Theorem expandPath_of_a_plain_path (h : Host) (inputPath : string) :
  Js.startsWith (Js.trim inputPath) "~" = false ->
  Js.occursIn "\" (Js.trim inputPath) = false ->
  PathScan.expandPath h inputPath = Js.trim inputPath.
Proof.
  intros Htilde Hplain. unfold PathScan.expandPath.
  rewrite Htilde. now apply replaceAll_without_backslash.
Qed.

Lemma expandPath_of_a_plain_path_witness :
  let h := mkHost Throw Throw (fun _ => Throw) "linux" "/home/ada" (fun _ => false)
             (fun _ => None) in
  Js.startsWith (Js.trim "  /data/a~b  ") "~" = false
  /\ Js.occursIn "\" (Js.trim "  /data/a~b  ") = false
  /\ PathScan.expandPath h "  /data/a~b  " = "/data/a~b".
Proof.
  intros h.
  split; [reflexivity|]. split; [reflexivity|].
  exact (expandPath_of_a_plain_path h "  /data/a~b  " eq_refl eq_refl).
Defined.

(** X7.  When the trimmed path starts with a tilde and the home directory
    has no [$] in it, that first tilde, and no other, is replaced by the
    home directory; the escaped-space replacement then runs over the whole
    result, the home directory included.  Without any backslash the result
    is the home directory followed by the rest of the path. *)
Theorem expandPath_expands_the_leading_tilde (h : Host) (inputPath rest : string) :
  Js.trim inputPath = String "~" rest ->
  Js.occursIn "$" (homedir h) = false ->
  PathScan.expandPath h inputPath
  = PathScan.replaceAll (homedir h +:+ rest) PathScan.escapedSpacePattern " "
  /\ (Js.occursIn "\" (homedir h) = false ->
      Js.occursIn "\" rest = false ->
      PathScan.expandPath h inputPath = homedir h +:+ rest).
Proof.
  intros Htrim Hhome.
  assert (PathScan.expandPath h inputPath
          = PathScan.replaceAll (homedir h +:+ rest) PathScan.escapedSpacePattern " ")
    as Hexpand.
  { unfold PathScan.expandPath. rewrite Htrim.
    assert (Js.startsWith (String "~" rest) "~" = true) as ->
      by (destruct rest; reflexivity).
    now rewrite replaceFirst_leading_tilde, getSubstitution_plain. }
  split; [exact Hexpand|].
  intros Hh Hr. rewrite Hexpand. apply replaceAll_without_backslash.
  now rewrite occursIn_append, Hh, Hr.
Qed.

Lemma expandPath_expands_the_leading_tilde_witness :
  let h := mkHost Throw Throw (fun _ => Throw) "linux" "/home/ada" (fun _ => false)
             (fun _ => None) in
  Js.trim " ~/work/~tmp " = String "~" "/work/~tmp"
  /\ Js.occursIn "$" (homedir h) = false
  /\ PathScan.expandPath h " ~/work/~tmp " = "/home/ada/work/~tmp".
Proof.
  intros h.
  destruct (expandPath_expands_the_leading_tilde h " ~/work/~tmp " "/work/~tmp"
              eq_refl eq_refl) as [_ Hplain].
  split; [reflexivity|]. split; [reflexivity|].
  exact (Hplain eq_refl eq_refl).
Defined.

(** ** The path getWorkspaceFiles scans *)

Section ScanPath.

Lemma trimStart_blank (s : string) : isBlank s = true -> Js.trimStart s = "".
Proof.
  induction s as [|c rest IH]; [reflexivity|]. simpl.
  intros H. apply andb_true_iff in H as [Hc Hrest]. rewrite Hc. now apply IH.
Qed.

Lemma nonempty_length (w : string) : w <> "" -> (0 <? String.length w)%nat = true.
Proof. destruct w; [congruence | reflexivity]. Qed.



End ScanPath.

(** X8.  A path given as white space only is not taken as absent: the
    current project is not looked up and the path tried is the empty
    string.  When the empty path does not exist the result is the empty
    inventory with an empty [scanPath]. *)
Theorem blank_workspacePath_is_tried_as_the_empty_path (h : Host) (w : string) :
  w <> "" ->
  isBlank w = true ->
  PathScan.expandPath h w = ""
  /\ PathScan.getWorkspaceFiles h (Some w)
     = tryCatch (PathScan.scanPathOrEmpty h "") (emptyInventory "error", [])
  /\ (pathExists h "" = false ->
      PathScan.getWorkspaceFiles h (Some w) = Normal (emptyInventory "", [])).
Proof.
  intros Hne Hblank.
  assert (PathScan.expandPath h w = "") as Hexpand.
  { unfold PathScan.expandPath, Js.trim. now rewrite trimStart_blank. }
  assert (PathScan.getWorkspaceFiles h (Some w)
          = tryCatch (PathScan.scanPathOrEmpty h "") (emptyInventory "error", []))
    as Hscan.
  { unfold PathScan.getWorkspaceFiles. now rewrite nonempty_length, Hexpand. }
  split; [exact Hexpand|]. split; [exact Hscan|].
  intros Hmissing. rewrite Hscan. unfold PathScan.scanPathOrEmpty.
  now rewrite Hmissing.
Qed.

Lemma blank_workspacePath_is_tried_as_the_empty_path_witness :
  let project := mkProject "p1" "/projects/p1" in
  let h := mkHost (Normal (Some project)) (Normal "/plugin") (fun _ => Normal tt)
             "linux" "/home/ada" (fun p => negb (String.eqb p "")) (fun _ => Some []) in
  "   " <> ""
  /\ isBlank "   " = true
  /\ PathScan.getWorkspaceFiles h (Some "   ") = Normal (emptyInventory "", []).
Proof.
  intros project h.
  assert ("   " <> "") as Hne by discriminate.
  destruct (blank_workspacePath_is_tried_as_the_empty_path h "   " Hne eq_refl)
    as (_ & _ & Hempty).
  split; [exact Hne|]. split; [reflexivity|].
  exact (Hempty eq_refl).
Defined.

(** X9.  With a path given, the result does not depend on the current
    project or on the plugin path: neither is consulted. *)
Theorem explicit_path_ignores_the_project (h : Host) (w : string)
    (current : Completion (option Project)) (pluginPath : Completion string) :
  w <> "" ->
  PathScan.getWorkspaceFiles (withProject h current pluginPath) (Some w)
  = PathScan.getWorkspaceFiles h (Some w).
Proof.
  intros Hne. unfold PathScan.getWorkspaceFiles.
  rewrite nonempty_length by exact Hne. reflexivity.
Qed.

Lemma explicit_path_ignores_the_project_witness :
  let h := mkHost (Normal None) (Normal "/plugin") (fun _ => Normal tt)
             "linux" "/home/ada" (fun _ => true)
             (fun _ => Some [RegularFile "a.caido" (Some 5)]) in
  "/data" <> ""
  /\ PathScan.getWorkspaceFiles (withProject h Throw Throw) (Some "/data")
     = PathScan.getWorkspaceFiles h (Some "/data").
Proof.
  intros h.
  assert ("/data" <> "") as Hne by discriminate.
  split; [exact Hne|].
  exact (explicit_path_ignores_the_project h "/data" Throw Throw Hne).
Defined.



(** ** checkFileSizeThresholds: events, alerts and edge cases *)

Section EvaluatorEvents.

Variable thresholdMB : Z.
Variable enableWarnings : bool.
Variable warningPercentages : list Z.

Lemma messagesOf_app (severity : AlertType) (a b : list BackendEvent) :
  messagesOf severity (a ++ b) = (messagesOf severity a ++ messagesOf severity b)%list.
Proof.
  induction a as [|[alert|summary] a IH]; simpl; [reflexivity | | exact IH].
  destruct (sameType (type alert) severity); simpl; now rewrite IH.
Qed.

Lemma echoed_pushAlert (m : string) (st : Evaluation) :
  echoed st -> echoed (pushAlert m st).
Proof.
  intros (Ha & Hw & Hl & Ht). unfold echoed, pushAlert. simpl.
  rewrite !messagesOf_app, !length_app, forallb_app, Ha, Hw, Ht. simpl.
  rewrite app_nil_r. repeat split. lia.
Qed.

Lemma echoed_pushWarning (m : string) (st : Evaluation) :
  echoed st -> echoed (pushWarning m st).
Proof.
  intros (Ha & Hw & Hl & Ht). unfold echoed, pushWarning. simpl.
  rewrite !messagesOf_app, !length_app, forallb_app, Ha, Hw, Ht. simpl.
  rewrite app_nil_r. repeat split. lia.
Qed.

Lemma echoed_warningLoop (tb sz : Z) (msg : Z -> string) (st : Evaluation) :
  echoed st -> echoed (warningLoop tb sz msg warningPercentages st).
Proof.
  intros Hst.
  destruct (warningLoop_cases tb sz msg st warningPercentages) as [-> | (p & _ & ->)];
    [exact Hst | now apply echoed_pushWarning].
Qed.

Lemma echoed_checkFile (st : Evaluation) (file : FileInfo) :
  echoed st -> echoed (checkFile thresholdMB enableWarnings warningPercentages st file).
Proof.
  intros Hst. unfold checkFile.
  destruct (negb _); [|exact Hst].
  destruct (_ <=? _); [now apply echoed_pushAlert|].
  destruct enableWarnings; [now apply echoed_warningLoop | exact Hst].
Qed.

Lemma echoed_checkCombined (directoryInfo : DirectoryInfo) (st : Evaluation) :
  echoed st ->
  echoed (checkCombined directoryInfo thresholdMB enableWarnings warningPercentages st).
Proof.
  intros Hst. unfold checkCombined.
  destruct (0 <? _)%nat; [|exact Hst].
  destruct (_ <=? _); [now apply echoed_pushAlert|].
  destruct enableWarnings; [now apply echoed_warningLoop | exact Hst].
Qed.

Lemma warningLoop_alerts (tb sz : Z) (msg : Z -> string) (st : Evaluation) :
  alerts (warningLoop tb sz msg warningPercentages st) = alerts st.
Proof.
  destruct (warningLoop_cases tb sz msg st warningPercentages) as [-> | (p & _ & ->)];
    reflexivity.
Qed.

Lemma checkFile_alerts (st : Evaluation) (file : FileInfo) :
  alerts (checkFile thresholdMB enableWarnings warningPercentages st file)
  = (alerts st
     ++ (if overThreshold thresholdMB file then [fileAlertMessage file thresholdMB]
         else []))%list.
Proof.
  unfold checkFile, overThreshold.
  destruct (negb _); simpl; [|now rewrite app_nil_r].
  destruct (_ <=? _); [reflexivity|].
  rewrite app_nil_r. destruct enableWarnings; [apply warningLoop_alerts | reflexivity].
Qed.

Lemma checkFiles_alerts (fs : list FileInfo) (st : Evaluation) :
  alerts (fold_left (checkFile thresholdMB enableWarnings warningPercentages) fs st)
  = (alerts st
     ++ map (fun f => fileAlertMessage f thresholdMB)
          (List.filter (overThreshold thresholdMB) fs))%list.
Proof.
  revert st. induction fs as [|f fs IH]; intros st; simpl; [now rewrite app_nil_r|].
  rewrite IH, checkFile_alerts.
  destruct (overThreshold thresholdMB f); simpl; now rewrite <- app_assoc.
Qed.

Lemma checkFileSizeThresholds_alerts (directoryInfo : DirectoryInfo) :
  alerts (checkFileSizeThresholds directoryInfo thresholdMB enableWarnings
            warningPercentages)
  = ((if groupOverThreshold directoryInfo thresholdMB
      then [combinedAlertMessage directoryInfo thresholdMB] else [])
     ++ map (fun f => fileAlertMessage f thresholdMB)
          (List.filter (overThreshold thresholdMB) (files directoryInfo)))%list.
Proof.
  unfold checkFileSizeThresholds. rewrite checkFiles_alerts. f_equal.
  unfold checkCombined, groupOverThreshold.
  destruct (0 <? _)%nat; simpl; [|reflexivity].
  destruct (_ <=? _); [reflexivity|].
  destruct enableWarnings; [apply warningLoop_alerts | reflexivity].
Qed.

(** A file adds at most one message, alert or warning. *)
Lemma checkFile_one_message (st : Evaluation) (file : FileInfo) :
  (length (alerts (checkFile thresholdMB enableWarnings warningPercentages st file))
   + length (warnings (checkFile thresholdMB enableWarnings warningPercentages st file))
   <= length (alerts st) + length (warnings st)
      + (if Js.endsWith (name file) ".caido" then 0 else 1))%nat.
Proof.
  unfold checkFile.
  destruct (Js.endsWith (name file) ".caido"); simpl; [lia|].
  destruct (_ <=? _); simpl; [rewrite length_app; simpl; lia|].
  destruct enableWarnings; [|lia].
  destruct (warningLoop_cases (thresholdMB * 1024 * 1024) (size file)
              (fileWarningMessage file thresholdMB) st warningPercentages)
    as [-> | (p & _ & ->)]; simpl; [lia|].
  rewrite length_app. simpl. lia.
Qed.

Lemma checkFiles_one_message (fs : list FileInfo) (st : Evaluation) :
  (length (alerts (fold_left (checkFile thresholdMB enableWarnings warningPercentages)
                     fs st))
   + length (warnings (fold_left (checkFile thresholdMB enableWarnings
                                    warningPercentages) fs st))
   <= length (alerts st) + length (warnings st)
      + length (List.filter (fun f => negb (Js.endsWith (name f) ".caido")) fs))%nat.
Proof.
  revert st. induction fs as [|f fs IH]; intros st; simpl; [lia|].
  pose proof (checkFile_one_message st f) as Hf.
  pose proof (IH (checkFile thresholdMB enableWarnings warningPercentages st f)) as Hfs.
  destruct (Js.endsWith (name f) ".caido"); simpl; lia.
Qed.

Lemma checkCombined_one_message (directoryInfo : DirectoryInfo) (st : Evaluation) :
  (length (alerts (checkCombined directoryInfo thresholdMB enableWarnings
                     warningPercentages st))
   + length (warnings (checkCombined directoryInfo thresholdMB enableWarnings
                         warningPercentages st))
   <= length (alerts st) + length (warnings st)
      + (if (0 <? length (caidoFiles directoryInfo))%nat then 1 else 0))%nat.
Proof.
  unfold checkCombined.
  destruct (0 <? _)%nat; simpl; [|lia].
  destruct (_ <=? _); simpl; [rewrite length_app; simpl; lia|].
  destruct enableWarnings; [|lia].
  destruct (warningLoop_cases (thresholdMB * 1024 * 1024) (caidoTotalSize directoryInfo)
              (combinedWarningMessage directoryInfo thresholdMB) st warningPercentages)
    as [-> | (p & _ & ->)]; simpl; [lia|].
  rewrite length_app. simpl. lia.
Qed.

End EvaluatorEvents.

(** X11.  Every alert and every warning returned was also sent as one
    threshold-alert event, of severity "error" for an alert and "warning"
    for a warning, in the same order, and nothing else was sent. *)
Theorem every_determination_is_sent_once (directoryInfo : DirectoryInfo)
    (thresholdMB : Z) (enableWarnings : bool) (warningPercentages : list Z) :
  let result :=
    checkFileSizeThresholds directoryInfo thresholdMB enableWarnings warningPercentages in
  messagesOf error (sent result) = alerts result
  /\ messagesOf warning (sent result) = warnings result
  /\ length (sent result) = (length (alerts result) + length (warnings result))%nat
  /\ forallb isThresholdAlert (sent result) = true.
Proof.
  unfold checkFileSizeThresholds.
  assert (forall fs st,
            echoed st ->
            echoed (fold_left (checkFile thresholdMB enableWarnings warningPercentages)
                      fs st)) as Hfold.
  { induction fs as [|f fs IH]; intros st Hst; simpl; [exact Hst|].
    now apply IH, echoed_checkFile. }
  apply Hfold, echoed_checkCombined. repeat split.
Qed.

(** X12.  The alerts returned are the alert of the combined total, when
    there are grouped files and their total is at least the threshold,
    followed by the alert of every file that is not a ".caido" file and is
    at least as large as the threshold, in the order of [files].  They do
    not depend on the warning settings. *)
Theorem alerts_are_the_entities_over_the_threshold (directoryInfo : DirectoryInfo)
    (thresholdMB : Z) (enableWarnings : bool) (warningPercentages : list Z) :
  alerts (checkFileSizeThresholds directoryInfo thresholdMB enableWarnings
            warningPercentages)
  = ((if groupOverThreshold directoryInfo thresholdMB
      then [combinedAlertMessage directoryInfo thresholdMB] else [])
     ++ map (fun f => fileAlertMessage f thresholdMB)
          (List.filter (overThreshold thresholdMB) (files directoryInfo)))%list.
Proof. apply checkFileSizeThresholds_alerts. Qed.

(** X13.  An evaluation returns at most one message, alert or warning, for
    the combined total and for each file that is not a ".caido" file, and
    none for anything else; with warnings disabled, or with no percentage
    given, it returns no warning. *)
Theorem at_most_one_message_per_entity (directoryInfo : DirectoryInfo)
    (thresholdMB : Z) (enableWarnings : bool) (warningPercentages : list Z) :
  let result :=
    checkFileSizeThresholds directoryInfo thresholdMB enableWarnings warningPercentages in
  (length (alerts result) + length (warnings result)
   <= (if (0 <? length (caidoFiles directoryInfo))%nat then 1 else 0)
      + length (List.filter (fun f => negb (Js.endsWith (name f) ".caido"))
                  (files directoryInfo)))%nat
  /\ (enableWarnings = false \/ warningPercentages = [] -> warnings result = []).
Proof.
  unfold checkFileSizeThresholds. split.
  - pose proof (checkCombined_one_message thresholdMB enableWarnings warningPercentages
                  directoryInfo emptyEvaluation) as Hgroup.
    simpl in Hgroup.
    pose proof (checkFiles_one_message thresholdMB enableWarnings warningPercentages
                  (files directoryInfo)
                  (checkCombined directoryInfo thresholdMB enableWarnings
                     warningPercentages emptyEvaluation)) as Hfiles.
    change {| alerts := []; warnings := []; sent := [] |} with emptyEvaluation.
    lia.
  - intros Hoff.
    assert (forall sz msg st,
              warnings (if enableWarnings
                        then warningLoop (thresholdMB * 1024 * 1024) sz msg
                               warningPercentages st
                        else st) = warnings st) as Hquiet.
    { intros sz msg st. destruct Hoff as [-> | ->]; [reflexivity|].
      now destruct enableWarnings. }
    assert (forall fs st,
              warnings st = [] ->
              warnings (fold_left
                          (checkFile thresholdMB enableWarnings warningPercentages)
                          fs st) = []) as Hfold.
    { induction fs as [|f fs IH]; intros st Hst; simpl; [exact Hst|].
      apply IH. unfold checkFile.
      destruct (negb _); [|exact Hst].
      destruct (_ <=? _); [exact Hst|]. now rewrite Hquiet. }
    apply Hfold. unfold checkCombined.
    destruct (0 <? _)%nat; [|reflexivity].
    destruct (_ <=? _); [reflexivity|]. now rewrite Hquiet.
Qed.

Lemma at_most_one_message_per_entity_witness :
  let big := mkFileInfo "dump.bin" 20971520 "20 MB" in
  let near := mkFileInfo "trace.log" 9437184 "9 MB" in
  let info := mkDirectoryInfo [big; near] 30408704 "29 MB" "/w" [] 0 "0 B" in
  warnings (checkFileSizeThresholds info 10 false [75; 90]) = [].
Proof.
  intros big near info.
  exact (proj2 (at_most_one_message_per_entity info 10 false [75; 90]) (or_introl eq_refl)).
Defined.

(** X14.  A threshold of zero or less does not switch the evaluation off:
    with sizes that are not negative, the combined total, when there are
    grouped files, and every file that is not a ".caido" file get an
    alert, and there is no warning. *)
Theorem nonpositive_threshold_alerts_on_everything (directoryInfo : DirectoryInfo)
    (thresholdMB : Z) (enableWarnings : bool) (warningPercentages : list Z) :
  thresholdMB <= 0 ->
  0 <= caidoTotalSize directoryInfo ->
  Forall (fun f => 0 <= size f) (files directoryInfo) ->
  let result :=
    checkFileSizeThresholds directoryInfo thresholdMB enableWarnings warningPercentages in
  alerts result
  = ((if (0 <? length (caidoFiles directoryInfo))%nat
      then [combinedAlertMessage directoryInfo thresholdMB] else [])
     ++ map (fun f => fileAlertMessage f thresholdMB)
          (List.filter (fun f => negb (Js.endsWith (name f) ".caido"))
             (files directoryInfo)))%list
  /\ warnings result = [].
Proof.
  intros Hmb Htotal Hsizes result. subst result.
  assert (forall sz, 0 <= sz -> (thresholdMB * 1024 * 1024 <=? sz) = true) as Hover.
  { intros sz Hsz. apply Z.leb_le. lia. }
  split.
  - rewrite checkFileSizeThresholds_alerts. f_equal.
    + unfold groupOverThreshold. rewrite (Hover _ Htotal). now rewrite andb_true_r.
    + f_equal. apply List.filter_ext_in. intros f Hf.
      unfold overThreshold. rewrite Hover; [apply andb_true_r|].
      rewrite List.Forall_forall in Hsizes. now apply Hsizes.
  - unfold checkFileSizeThresholds.
    assert (warnings (checkCombined directoryInfo thresholdMB enableWarnings
                        warningPercentages emptyEvaluation) = []) as Hgroup.
    { unfold checkCombined. destruct (0 <? _)%nat; [|reflexivity].
      now rewrite (Hover _ Htotal). }
    change {| alerts := []; warnings := []; sent := [] |} with emptyEvaluation.
    set (st := checkCombined _ _ _ _ _) in *. clearbody st.
    revert st Hgroup.
    induction Hsizes as [|f fs Hf _ IH]; intros st Hst; simpl; [exact Hst|].
    apply IH. unfold checkFile.
    destruct (negb _); [|exact Hst]. now rewrite (Hover _ Hf).
Qed.

Lemma nonpositive_threshold_alerts_on_everything_witness :
  let empty := mkFileInfo "empty.txt" 0 "0 B" in
  let info := mkDirectoryInfo [empty] 0 "0 B" "/w" [] 0 "0 B" in
  0 <= 0
  /\ 0 <= caidoTotalSize info
  /\ Forall (fun f => 0 <= size f) (files info)
  /\ alerts (checkFileSizeThresholds info 0 true [75; 90])
     = [fileAlertMessage empty 0]
  /\ warnings (checkFileSizeThresholds info 0 true [75; 90]) = [].
Proof.
  intros empty info.
  assert (0 <= 0) as Hmb by lia.
  assert (0 <= caidoTotalSize info) as Htotal by (simpl; lia).
  assert (Forall (fun f => 0 <= size f) (files info)) as Hsizes.
  { simpl. constructor; [simpl; lia | constructor]. }
  destruct (nonpositive_threshold_alerts_on_everything info 0 true [75; 90]
              Hmb Htotal Hsizes) as [Halerts Hwarnings].
  split; [exact Hmb|]. split; [exact Htotal|]. split; [exact Hsizes|].
  split; [exact Halerts | exact Hwarnings].
Defined.

(** ** The percentages the frontend sends *)

Section FrontendPercentages.

Lemma warningLoop_75_then_90 (tb sz : Z) (msg : Z -> string) (st : Evaluation) :
  0 <= tb ->
  warningLoop tb sz msg [75; 90] st = warningLoop tb sz msg [75] st.
Proof.
  intros Htb. simpl. rewrite !band_reached.
  destruct (Z.leb_spec (tb * 75) (100 * sz)) as [_|Hlow]; [reflexivity|].
  destruct (Z.leb_spec (tb * 90) (100 * sz)) as [Hhigh|_]; [lia | reflexivity].
Qed.

End FrontendPercentages.

(** X15.  With the 75% warning switched on and a threshold that is not
    negative, the evaluation of the percentages the frontend sends is the
    evaluation of [75] alone: switching the 90% warning on or off changes
    neither the alerts, nor the warnings, nor the events. *)
Theorem with_75_enabled_the_90_toggle_changes_nothing (settings : Frontend.Settings)
    (directoryInfo : DirectoryInfo) :
  Frontend.warningAt75Percent settings = true ->
  0 <= Frontend.thresholdMB settings ->
  checkFileSizeThresholds directoryInfo (Frontend.thresholdMB settings)
    (Frontend.enableWarnings settings) (Frontend.warningPercentages settings)
  = checkFileSizeThresholds directoryInfo (Frontend.thresholdMB settings)
      (Frontend.enableWarnings settings) [75].
Proof.
  intros H75 Hmb. unfold Frontend.warningPercentages. rewrite H75.
  destruct (Frontend.warningAt90Percent settings); [|reflexivity].
  simpl app. set (mb := Frontend.thresholdMB settings) in *.
  set (ew := Frontend.enableWarnings settings).
  assert (0 <= mb * 1024 * 1024) as Htb by lia.
  unfold checkFileSizeThresholds.
  assert (forall st, checkCombined directoryInfo mb ew [75; 90] st
                     = checkCombined directoryInfo mb ew [75] st) as Hgroup.
  { intros st. unfold checkCombined. now rewrite warningLoop_75_then_90. }
  assert (forall st f, checkFile mb ew [75; 90] st f = checkFile mb ew [75] st f) as Hfile.
  { intros st f. unfold checkFile. now rewrite warningLoop_75_then_90. }
  rewrite Hgroup. generalize (checkCombined directoryInfo mb ew [75]
                                {| alerts := []; warnings := []; sent := [] |}).
  induction (files directoryInfo) as [|f fs IH]; intros st; simpl; [reflexivity|].
  now rewrite Hfile, IH.
Qed.

Lemma with_75_enabled_the_90_toggle_changes_nothing_witness :
  let settings := Frontend.mkSettings 100 true true true in
  let file := mkFileInfo "capture.log" 96468992 "92 MB" in
  let info := mkDirectoryInfo [file] 96468992 "92 MB" "/workspace" [] 0 "0 B" in
  Frontend.warningAt75Percent settings = true
  /\ 0 <= Frontend.thresholdMB settings
  /\ Frontend.warningPercentages settings = [75; 90]
  /\ checkFileSizeThresholds info 100 true [75; 90]
     = checkFileSizeThresholds info 100 true [75].
Proof.
  intros settings file info.
  assert (0 <= Frontend.thresholdMB settings) as Hmb by (simpl; lia).
  split; [reflexivity|]. split; [exact Hmb|]. split; [reflexivity|].
  exact (with_75_enabled_the_90_toggle_changes_nothing settings info eq_refl Hmb).
Defined.

(** ** More on the alert escalator *)

Module EscalatorMore.

Import Escalator.
Import EscalatorFacts.

Section Restart.

Variable alert : ThresholdAlert.
Variables id counter : positive.

(** The identity of a completed escalation is delivered again: the counter
    is the same object, its count goes back to 1 and a new interval is
    armed. *)
Lemma deliver_completed (s : State) :
  wellFormed s ->
  escalating alert id counter 3 s ->
  alertCounters s !! alertKey alert = Some counter ->
  escalating alert (nextInterval s) counter 1 (showThresholdAlert alert true s)
  /\ displayed (showThresholdAlert alert true s)
     = (displayed s ++ [mkDisplay alert 1])%list.
Proof.
  intros [Hwreg Hwitv Hwhand] [Hrange Hign Hreg Hcnt Hitv Hoth Hhand Hnid Hnobj] Hkey.
  simpl in Hcnt, Hitv.
  unfold showThresholdAlert, counterFor.
  rewrite decide_False by done. rewrite Hkey.
  unfold setCount. rewrite Hcnt. simpl.
  unfold showSingleAlert. simpl.
  rewrite decide_False by done.
  unfold armInterval. simpl. rewrite lookup_insert_eq. simpl.
  split; [|done]. split; simpl; try done; try lia.
  - by rewrite lookup_insert_eq.
  - by rewrite lookup_insert_eq.
  - intros id' t. rewrite lookup_insert.
    destruct (decide (nextInterval s = id')) as [<-|_]; [done|].
    intros Ht _. apply (Hoth _ _ Ht). intros ->. by rewrite Hitv in Ht.
  - intros counter' c. rewrite !lookup_insert.
    destruct (decide (counter = counter')) as [<-|_]; [done|].
    intros Hc _ Hid. pose proof (Hwhand _ _ _ Hc Hid). lia.
Qed.

End Restart.

(** X16.  An escalation that has shown its three dialogs starts again in
    full when the same identity is delivered once more: the first dialog
    is shown at once and each of the first two fires of the new interval
    shows one more, numbered 1, 2 and 3 again. *)
Theorem completed_escalation_restarts_on_redelivery (s : State)
    (alert : ThresholdAlert) (id counter : positive) (rest : list Input) :
  wellFormed s ->
  escalating alert id counter 3 s ->
  alertCounters s !! alertKey alert = Some counter ->
  Forall (undisturbed (alertKey alert) (nextInterval s)) rest ->
  displaysOf (alertKey alert) (displayed (run (Deliver alert true :: rest) s))
  = (displaysOf (alertKey alert) (displayed s)
     ++ take (S (min (firesOf (nextInterval s) rest) 2)) (threeDisplays alert))%list.
Proof.
  intros Hwf Hesc Hkey Hquiet.
  destruct (deliver_completed alert id counter s Hwf Hesc Hkey) as [Hesc1 Hshown].
  assert (displaysOf (alertKey alert) (displayed (showThresholdAlert alert true s))
          = (displaysOf (alertKey alert) (displayed s)
             ++ take (Z.to_nat 1) (threeDisplays alert))%list) as Hbase.
  { by rewrite Hshown, displaysOf_app, displaysOf_own. }
  destruct (run_undisturbed alert (nextInterval s) counter
              (displaysOf (alertKey alert) (displayed s)) rest 1 _ Hesc1 Hbase Hquiet)
    as [_ Hshown'].
  simpl run. rewrite Hshown'. do 2 f_equal. lia.
Qed.

Lemma completed_escalation_restarts_on_redelivery_witness :
  let alert := mkThresholdAlert error "File over threshold" in
  let s := run [Deliver alert true; Fire 1 true; Fire 1 true] init in
  let rest := [Fire 2 true; Fire 2 true; Fire 2 true] in
  wellFormed s
  /\ escalating alert 1 1 3 s
  /\ alertCounters s !! alertKey alert = Some 1%positive
  /\ Forall (undisturbed (alertKey alert) (nextInterval s)) rest
  /\ displaysOf (alertKey alert) (displayed (run (Deliver alert true :: rest) s))
     = (threeDisplays alert ++ threeDisplays alert)%list.
Proof.
  intros alert s rest.
  assert (wellFormed s) as Hwf by (apply wellFormed_run, wellFormed_init).
  assert (escalating alert 1 1 3 s) as Hesc.
  { destruct (deliver_unseen alert init wellFormed_init (unseen_init _)) as [H1 _].
    destruct (fire_own alert 1 1 1 _ H1 ltac:(lia)) as [H2 _].
    destruct (fire_own alert 1 1 2 _ H2 ltac:(lia)) as [H3 _].
    exact H3. }
  assert (alertCounters s !! alertKey alert = Some 1%positive) as Hkey by reflexivity.
  assert (Forall (undisturbed (alertKey alert) (nextInterval s)) rest) as Hquiet.
  { repeat constructor. }
  split; [exact Hwf|]. split; [exact Hesc|]. split; [exact Hkey|].
  split; [exact Hquiet|].
  exact (completed_escalation_restarts_on_redelivery s alert 1 1 rest
           Hwf Hesc Hkey Hquiet).
Defined.

Section Leak.

(** An interval that is not the one registered in its counter fires and
    the user answers OK: the dialog is shown and the interval stays. *)
Lemma fire_unregistered (id : positive) (t : Timer) (c : Counter) (s : State) :
  intervals s !! id = Some t ->
  alertKey (timerAlert t) ∉ ignoredAlerts s ->
  store s !! timerCounter t = Some c ->
  intervalId c <> Some id ->
  let s' := fire id true s in
  displayed s' = (displayed s ++ [mkDisplay (timerAlert t) (count c + 1)])%list
  /\ intervals s' !! id = Some t
  /\ (alertKey (timerAlert t) ∉ ignoredAlerts s')
  /\ exists c',
       store s' !! timerCounter t = Some c'
       /\ count c' = count c + 1
       /\ intervalId c' <> Some id.
Proof.
  intros Ht Hign Hc Hid s'. subst s'.
  unfold fire. rewrite Ht, decide_False, Hc by done.
  set (s1 := showSingleAlert _ _ _ true _).
  assert (displayed s1
          = (displayed s ++ [mkDisplay (timerAlert t) (count c + 1)])%list
          /\ intervals s1 = intervals s
          /\ ignoredAlerts s1 = ignoredAlerts s
          /\ store s1
             = <[timerCounter t := mkCounter (count c + 1) (intervalId c)]> (store s))
    as (Hshown & Hitv & Hign1 & Hstore).
  { unfold s1, showSingleAlert, setCount. rewrite Hc. simpl.
    by destruct (count c + 1 =? 1). }
  rewrite Hstore, lookup_insert_eq. simpl.
  destruct (3 <=? count c + 1).
  - unfold cancelTimerOf. rewrite Hstore, lookup_insert_eq. simpl.
    destruct (intervalId c) as [id'|] eqn:Eid; simpl.
    + rewrite Hshown, Hitv, Hign1.
      split; [done|]. split; [rewrite lookup_delete_ne; [done | congruence]|].
      split; [done|]. eexists. rewrite lookup_insert_eq. by repeat split.
    + rewrite Hshown, Hitv, Hign1, Hstore.
      split; [done|]. split; [done|]. split; [done|].
      eexists. rewrite lookup_insert_eq. by repeat split.
  - rewrite Hshown, Hitv, Hign1, Hstore.
    split; [done|]. split; [done|]. split; [done|].
    eexists. rewrite lookup_insert_eq. by repeat split.
Qed.

End Leak.

(** X17.  An interval that is not the one registered in the counter it
    captured is not stopped by the count of three: as long as the user
    answers OK, each time it fires it shows one more dialog, with the next
    number and without bound, and it stays armed.  (Delivering an identity
    again while its escalation runs leaves its first interval in that
    situation.) *)
Theorem unregistered_interval_never_stops (n : nat) :
  forall (s : State) (id : positive) (t : Timer) (c : Counter),
    intervals s !! id = Some t ->
    alertKey (timerAlert t) ∉ ignoredAlerts s ->
    store s !! timerCounter t = Some c ->
    intervalId c <> Some id ->
    let s' := run (repeat (Fire id true) n) s in
    displayed s'
    = (displayed s
       ++ map (fun j => mkDisplay (timerAlert t) (count c + Z.of_nat j)) (seq 1 n))%list
    /\ intervals s' !! id = Some t.
Proof.
  induction n as [|n IH]; intros s id t c Ht Hign Hc Hid.
  - simpl. by rewrite app_nil_r.
  - destruct (fire_unregistered id t c s Ht Hign Hc Hid)
      as (Hshown & Ht' & Hign' & c' & Hc' & Hcount & Hid').
    destruct (IH (fire id true s) id t c' Ht' Hign' Hc' Hid') as [Hshown' Ht''].
    simpl repeat. simpl run. split; [|exact Ht''].
    change (fold_left step (repeat (Fire id true) n) (fire id true s))
      with (run (repeat (Fire id true) n) (fire id true s)).
    rewrite Hshown', Hshown, <- app_assoc. f_equal.
    cbn [seq map app]. f_equal.
    rewrite <- (List.seq_shift n 1), List.map_map.
    apply List.map_ext. intros j. rewrite Hcount. f_equal. lia.
Qed.

Lemma unregistered_interval_never_stops_witness :
  let alert := mkThresholdAlert error "File over threshold" in
  let s := run [Deliver alert true; Deliver alert true] init in
  let t := mkTimer alert 1 in
  let c := mkCounter 1 (Some 2%positive) in
  intervals s !! 1%positive = Some t
  /\ (alertKey (timerAlert t) ∉ ignoredAlerts s)
  /\ store s !! timerCounter t = Some c
  /\ intervalId c <> Some 1%positive
  /\ map alertNumber (displayed (run (repeat (Fire 1 true) 5) s)) = [1; 1; 2; 3; 4; 5; 6]
  /\ intervals (run (repeat (Fire 1 true) 5) s) !! 1%positive = Some t.
Proof.
  intros alert s t c.
  assert (intervals s !! 1%positive = Some t) as Ht by reflexivity.
  assert (alertKey (timerAlert t) ∉ ignoredAlerts s) as Hign.
  { vm_compute. set_solver. }
  assert (store s !! timerCounter t = Some c) as Hc by reflexivity.
  assert (intervalId c <> Some 1%positive) as Hid by discriminate.
  destruct (unregistered_interval_never_stops 5 s 1 t c Ht Hign Hc Hid)
    as [Hshown Hlive].
  split; [exact Ht|]. split; [exact Hign|]. split; [exact Hc|]. split; [exact Hid|].
  split; [|exact Hlive].
  rewrite Hshown. reflexivity.
Defined.

Section Clear.

Lemma clearRegisteredIntervals_clears (s : State) :
  forall key counter c id,
    alertCounters s !! key = Some counter ->
    store s !! counter = Some c ->
    intervalId c = Some id ->
    intervals (clearRegisteredIntervals s) !! id = None.
Proof.
  unfold clearRegisteredIntervals.
  apply (map_fold_weak_ind
           (fun (r : State) (m : gmap string positive) =>
              store r = store s
              /\ forall key counter c id,
                   m !! key = Some counter ->
                   store s !! counter = Some c ->
                   intervalId c = Some id ->
                   intervals r !! id = None)).
  - split; [done|]. intros key counter c id. by rewrite lookup_empty.
  - intros key counter m r Hfresh [Hstore IH].
    assert (forall r', store r' = store s -> intervals r' ⊆ intervals r ->
              store r' = store s
              /\ (forall key' counter' c' id',
                    m !! key' = Some counter' ->
                    store s !! counter' = Some c' ->
                    intervalId c' = Some id' ->
                    intervals r' !! id' = None)) as Hkeep.
    { intros r' Hst Hsub. split; [done|]. intros key' counter' c' id' Hk Hc Hi.
      eapply lookup_weaken_None; [by eapply IH | done]. }
    rewrite Hstore.
    destruct (store s !! counter) as [c|] eqn:Ec.
    + destruct (intervalId c) as [id|] eqn:Eid.
      * destruct (Hkeep (clearInterval id r) Hstore (delete_subseteq _ _))
          as [Hst Hold].
        split; [done|]. intros key' counter' c' id'. rewrite lookup_insert.
        destruct (decide (key = key')) as [<-|_]; [|by apply Hold].
        intros [= <-] Hc Hi. rewrite Ec in Hc. injection Hc as <-.
        rewrite Eid in Hi. injection Hi as <-. simpl. by rewrite lookup_delete_eq.
      * split; [done|]. intros key' counter' c' id'. rewrite lookup_insert.
        destruct (decide (key = key')) as [<-|_]; [|by apply IH].
        intros [= <-] Hc Hi. rewrite Ec in Hc. injection Hc as <-. congruence.
    + split; [done|]. intros key' counter' c' id'. rewrite lookup_insert.
      destruct (decide (key = key')) as [<-|_]; [|by apply IH].
      intros [= <-] Hc. congruence.
Qed.

End Clear.

(** X18.  [clearAllNotifications] clears every interval that is registered
    in a counter of the registry, arms none, and leaves the escalator with
    an empty registry, an empty ignored set and no banner; the dialogs
    shown are not touched.  An interval so cleared does nothing when its
    time comes. *)
Theorem clearAllNotifications_cancels_registered_intervals (s : State) :
  let s' := clearAllNotifications s in
  alertCounters s' = ∅
  /\ ignoredAlerts s' = ∅
  /\ flashBanner s' = None
  /\ displayed s' = displayed s
  /\ intervals s' ⊆ intervals s
  /\ (forall key counter c id,
        alertCounters s !! key = Some counter ->
        store s !! counter = Some c ->
        intervalId c = Some id ->
        intervals s' !! id = None
        /\ forall result, fire id result s' = s').
Proof.
  intros s'.
  destruct (clearRegisteredIntervals_fields s)
    as (Hsub & _ & _ & _ & _ & _ & _ & Hshown).
  split; [done|]. split; [done|]. split; [done|].
  split; [exact Hshown|]. split; [exact Hsub|].
  intros key counter c id Hk Hc Hi.
  assert (intervals s' !! id = None) as Hgone.
  { exact (clearRegisteredIntervals_clears s key counter c id Hk Hc Hi). }
  split; [exact Hgone|]. intros result. unfold fire. by rewrite Hgone.
Qed.

Lemma clearAllNotifications_cancels_registered_intervals_witness :
  let alert := mkThresholdAlert warning "Combined .caido files at 75%" in
  let s := run [Deliver alert true] init in
  alertCounters s !! alertKey alert = Some 1%positive
  /\ store s !! 1%positive = Some (mkCounter 1 (Some 1%positive))
  /\ intervals s !! 1%positive = Some (mkTimer alert 1)
  /\ intervals (clearAllNotifications s) !! 1%positive = None
  /\ displayed (run [ClearAll; Fire 1 true; Fire 1 true] s) = [mkDisplay alert 1].
Proof.
  intros alert s.
  assert (alertCounters s !! alertKey alert = Some 1%positive) as Hk by reflexivity.
  assert (store s !! 1%positive = Some (mkCounter 1 (Some 1%positive))) as Hc
    by reflexivity.
  destruct (clearAllNotifications_cancels_registered_intervals s)
    as (_ & _ & _ & Hshown & _ & Hclear).
  destruct (Hclear _ _ _ _ Hk Hc eq_refl) as [Hgone Hidle].
  split; [exact Hk|]. split; [exact Hc|]. split; [reflexivity|].
  split; [exact Hgone|].
  change (run [ClearAll; Fire 1 true; Fire 1 true] s)
    with (fire 1 true (fire 1 true (clearAllNotifications s))).
  rewrite (Hidle true), (Hidle true). exact Hshown.
Defined.

End EscalatorMore.
